(** * Syndrome tables for the 7-qubit stabilizer code (qgss-2025)

    A shallow embedding of [lab-4/generate_error_table.py] and of the
    [accumulated_errors] helper of [lab-2/test_accumulated_errors.py],
    with the properties checked against them.

    Conventions of the embedding:
    - a Python [str] is a Rocq [string]; iterating over it yields its
      characters ([ascii]);
    - a raised exception is the [Raise] branch of [result];
    - [print] appends one entry to the list of lines written so far;
    - a [dict] that is only written and looked up is a [gmap]; a [dict]
      whose iteration order is observed is an insertion-ordered
      association list ([odict]). *)

From Stdlib Require Import ZArith QArith Ascii DecimalString.
From stdpp Require Import base list strings gmap sorting.

Local Open Scope string_scope.

(** ** Exceptions *)

Inductive exn : Type :=
  | ValueError (msg : string)
  | KeyError (key : string)
  | IndexError
  | OtherError (msg : string)
  | NonException (name : string).

(** Whether the exception is an instance of [Exception], which is what
    [except Exception] catches: [ValueError], [KeyError], [IndexError] and
    the other ordinary errors are; [KeyboardInterrupt], [SystemExit] and
    [GeneratorExit] ([NonException]) derive from [BaseException] only. *)
Definition is_exception (e : exn) : bool :=
  match e with
  | NonException _ => false
  | _ => true
  end.

Inductive result (A : Type) : Type :=
  | Ok (a : A)
  | Raise (e : exn).
Arguments Ok {A} a.
Arguments Raise {A} e.

Definition result_bind {A B} (m : result A) (k : A → result B) : result B :=
  match m with
  | Ok a => k a
  | Raise e => Raise e
  end.

#[global] Instance result_ret : MRet result := @Ok.
#[global] Instance result_mbind : MBind result :=
  λ A B k m, result_bind m k.

(** The computation returns, and its value satisfies [P]. *)
Definition returns {A} (m : result A) (P : A → Prop) : Prop :=
  match m with Ok a => P a | Raise _ => False end.

#[global] Instance returns_dec {A} (m : result A) (P : A → Prop)
  `{∀ a, Decision (P a)} : Decision (returns m P).
Proof. destruct m; simpl; apply _. Defined.

(** [for x in l: acc = body x acc], stopping at the first exception. *)
Fixpoint for_each {A S} (body : A → S → result S) (l : list A) (s : S)
  : result S :=
  match l with
  | [] => Ok s
  | x :: l' => s' ← body x s; for_each body l' s'
  end.

(** ** Python string helpers *)

(** Iterating over a [str]. *)
Definition chars (s : string) : list ascii := String.list_ascii_of_string s.

(** [len(s)] *)
Definition len (s : string) : nat := String.length s.

(** [sep.join(parts)] *)
Definition join (sep : string) (parts : list string) : string :=
  String.concat sep parts.

(** [str(i)] for a non-negative integer. *)
Definition str (i : nat) : string := NilZero.string_of_uint (Nat.to_uint i).

(** [s * n] *)
Fixpoint str_mul (s : string) (n : nat) : string :=
  match n with
  | 0 => EmptyString
  | S n' => s +:+ str_mul s n'
  end.

(** ** [pauli_commute] *)

Module PauliAlgebra.

(** [c in [a, b]] *)
Definition py_in (c : ascii) (l : list ascii) : bool :=
  existsb (Ascii.eqb c) l.

(** The condition of the [if] inside the loop of [pauli_commute]. *)
Definition anti_commute_at (p1 p2 : ascii) : bool :=
  (Ascii.eqb p1 "X" && py_in p2 ["Y"; "Z"]%char)
  || (Ascii.eqb p1 "Y" && py_in p2 ["X"; "Z"]%char)
  || (Ascii.eqb p1 "Z" && py_in p2 ["X"; "Y"]%char).

(** The loop [for p1, p2 in zip(pauli1, pauli2)], threading the counter. *)
Fixpoint count_loop (ps : list (ascii * ascii)) (anti_commute_count : nat)
  : nat :=
  match ps with
  | [] => anti_commute_count
  | (p1, p2) :: ps' =>
      count_loop ps'
        (if anti_commute_at p1 p2 then anti_commute_count + 1
         else anti_commute_count)
  end.

Definition length_message : string := "Pauli strings must have same length".

Definition pauli_commute (pauli1 pauli2 : string) : result bool :=
  if negb (len pauli1 =? len pauli2)%nat then
    Raise (ValueError length_message)
  else
    let anti_commute_count := count_loop (zip (chars pauli1) (chars pauli2)) 0 in
    Ok (anti_commute_count mod 2 =? 0)%nat.

(** *** The symplectic rule, as the specification words it *)

(** A symbol of the Pauli alphabet. *)
Definition pauli_symbol (c : ascii) : Prop :=
  c = "I"%char ∨ c = "X"%char ∨ c = "Y"%char ∨ c = "Z"%char.

Definition pauli_string (s : string) : Prop := Forall pauli_symbol (chars s).

(** Two local operators anti-commute when both are non-identity and they
    differ. *)
Definition locally_anticommute (p : ascii * ascii) : bool :=
  negb (Ascii.eqb p.1 "I") && negb (Ascii.eqb p.2 "I")
  && negb (Ascii.eqb p.1 p.2).

(** Number of positions that locally anti-commute. *)
Definition anticommuting_positions (a b : string) : nat :=
  length (filter (λ p, locally_anticommute p = true) (zip (chars a) (chars b))).

(** *** Symbols the test tells apart *)

(** One of the three symbols the loop of [pauli_commute] compares with. *)
Definition non_trivial (c : ascii) : bool := py_in c ["X"; "Y"; "Z"]%char.

(** A string none of whose characters is X, Y or Z. *)
Definition trivial_string (s : string) : Prop :=
  Forall (λ c, non_trivial c = false) (chars s).

(** Reading every other character as the identity. *)
Definition as_pauli (c : ascii) : ascii := if non_trivial c then c else "I"%char.

Definition map_chars (f : ascii → ascii) (s : string) : string :=
  String.string_of_list_ascii (map f (chars s)).

End PauliAlgebra.

Export PauliAlgebra.

(** ** Lists and dictionaries *)

(** [l[idx] = x] on a Python list: a negative index counts from the end, an
    index out of range raises [IndexError]. *)
Definition py_setitem {A} (l : list A) (idx : Z) (x : A) : result (list A) :=
  let n := Z.of_nat (length l) in
  let idx := if (idx <? 0)%Z then (idx + n)%Z else idx in
  if ((idx <? 0) || (n <=? idx))%Z then Raise IndexError
  else Ok (<[Z.to_nat idx := x]> l).

(** [d[k]] on a dictionary: a missing key raises [KeyError]. *)
Definition dict_get (d : gmap string string) (k : string) : result string :=
  match d !! k with
  | Some v => Ok v
  | None => Raise (KeyError k)
  end.

(** ** [generate_syndrome_dictionary] *)

Module SyndromeTable.

(** The stabilizers of the 7-qubit code, as the dictionary literal lists
    them. *)
Definition reference_stabilizers : gmap string string :=
  <["S0" := "IIIXXXX"]> (<["S1" := "IXXIIXX"]> (<["S2" := "XIXIXIX"]>
  (<["S3" := "IIIZZZZ"]> (<["S4" := "IZZIIZZ"]> (<["S5" := "ZIZIZIZ"]> ∅))))).

(** The order in which the generators are consulted. *)
Definition stab_names : list string := ["S5"; "S4"; "S3"; "S2"; "S1"; "S0"].

Section WithStabilizers.

(** The local [stabilizers] dictionary, which the nested [get_syndrome]
    captures. *)
Variable stabilizers : gmap string string.

Definition get_syndrome (error_string : string) : result string :=
  syndrome ←
    for_each
      (λ stab_name (syndrome : list string),
         stab_string ← dict_get stabilizers stab_name;
         commutes ← pauli_commute error_string stab_string;
         Ok (syndrome ++ [if commutes : bool then "0" else "1"])%list)
      stab_names [];
  Ok (join EmptyString syndrome).

(** The body of [for i in range(7)]. *)
Definition loop_body (i : nat) (syndrome_dict : gmap string string)
  : result (gmap string string) :=
  (* X errors *)
  error_string ← py_setitem (replicate 7 "I") (6 - Z.of_nat i) "X";
  let x_error := join EmptyString error_string in
  syndrome ← get_syndrome x_error;
  let syndrome_dict := <[syndrome := "X" +:+ str i]> syndrome_dict in
  (* Y errors *)
  error_string ← py_setitem (replicate 7 "I") (6 - Z.of_nat i) "Y";
  let y_error := join EmptyString error_string in
  syndrome ← get_syndrome y_error;
  let syndrome_dict := <[syndrome := "Y" +:+ str i]> syndrome_dict in
  (* Z errors *)
  error_string ← py_setitem (replicate 7 "I") (6 - Z.of_nat i) "Z";
  let z_error := join EmptyString error_string in
  syndrome ← get_syndrome z_error;
  let syndrome_dict := <[syndrome := "Z" +:+ str i]> syndrome_dict in
  Ok syndrome_dict.

(** The body of [generate_syndrome_dictionary], for the captured
    [stabilizers]. *)
Definition syndrome_dictionary : result (gmap string string) :=
  let syndrome_dict := ∅ in
  syndrome_dict ← for_each loop_body (seq 0 7) syndrome_dict;
  (* Identity (no error) *)
  let identity := "IIIIIII" in
  syndrome ← get_syndrome identity;
  let syndrome_dict := <[syndrome := "I"]> syndrome_dict in
  Ok syndrome_dict.

End WithStabilizers.

Definition generate_syndrome_dictionary : result (gmap string string) :=
  syndrome_dictionary reference_stabilizers.

(** *** The enumeration the loop walks through *)

(** An error operator: its label and its Pauli string. *)
Definition error_operator : Type := string * string.

(** The weight-1 error with [symbol] on qubit [i]: qubit 0 is the rightmost
    position. *)
Definition single_qubit_error (symbol : string) (i : nat) : error_operator :=
  (symbol +:+ str i, join EmptyString (<[6 - i := symbol]> (replicate 7 "I"))).

(** Ascending qubit index, X before Y before Z, then the identity. *)
Definition enumerated_errors : list error_operator :=
  (flat_map
    (λ i, [single_qubit_error "X" i; single_qubit_error "Y" i;
           single_qubit_error "Z" i])
    (seq 0 7)
  ++ [("I", "IIIIIII")])%list.

(** One insertion of the loop: [syndrome_dict[syndrome] = label]. *)
Definition insert_error (stabilizers : gmap string string)
    (e : error_operator) (syndrome_dict : gmap string string)
  : result (gmap string string) :=
  syndrome ← get_syndrome stabilizers e.2;
  Ok (<[syndrome := e.1]> syndrome_dict).

(** The syndromes of a list of errors, when all of them can be computed. *)
Definition syndromes_of (stabilizers : gmap string string)
    (errors : list error_operator) : result (list string) :=
  for_each
    (λ e acc, s ← get_syndrome stabilizers e.2; Ok (acc ++ [s])%list)
    errors [].

(** [L] lists the syndromes of [errors], one by one. *)
Definition syndromes_are (stabilizers : gmap string string)
    (errors : list error_operator) (L : list string) : Prop :=
  Forall2 (λ e s, get_syndrome stabilizers e.2 = Ok s) errors L.

(** A collision in the specification's sense: an insertion that finds its
    syndrome bound to a different label.  The source computes no such
    report; this replays its insertions to count them. *)
Definition collision_report : Type := string * string * string.

Fixpoint collisions (stabilizers : gmap string string)
    (errors : list error_operator) (syndrome_dict : gmap string string)
  : list collision_report :=
  match errors with
  | [] => []
  | e :: errors' =>
      match get_syndrome stabilizers e.2 with
      | Raise _ => []
      | Ok syndrome =>
          let here :=
            match syndrome_dict !! syndrome with
            | Some existing =>
                if decide (existing = e.1) then []
                else [(syndrome, existing, e.1)]
            | None => []
            end in
          (here ++ collisions stabilizers errors' (<[syndrome := e.1]> syndrome_dict))%list
      end
  end.


(** A stabilizer dictionary whose X-type entries repeat the Z-type ones: an
    X error and the Y error on the same qubit then share their syndrome. *)
Definition z_only_stabilizers : gmap string string :=
  <["S0" := "IIIZZZZ"]> (<["S1" := "IZZIIZZ"]> (<["S2" := "ZIZIZIZ"]>
  (<["S3" := "IIIZZZZ"]> (<["S4" := "IZZIIZZ"]> (<["S5" := "ZIZIZIZ"]> ∅))))).

End SyndromeTable.

Export SyndromeTable.

(** ** Standard output *)

(** A computation that prints: it receives the lines written so far and
    returns them extended, together with its result or the exception that
    stopped it. *)
Definition io (A : Type) : Type := list string → result A * list string.

Definition io_ret {A} (a : A) : io A := λ out, (Ok a, out).

Definition io_bind {A B} (m : io A) (k : A → io B) : io B :=
  λ out,
    match m out with
    | (Ok a, out') => k a out'
    | (Raise e, out') => (Raise e, out')
    end.

Notation "x ←ᵢ m ; k" := (io_bind m (λ x, k))
  (at level 20, m at level 100, k at level 200, only parsing, right associativity).
Notation "m ;ᵢ k" := (io_bind m (λ _, k))
  (at level 100, k at level 200, only parsing, right associativity).

(** [print(line)] *)
Definition print (line : string) : io unit := λ out, (Ok tt, out ++ [line])%list.

(** A computation that does not print. *)
Definition lift {A} (r : result A) : io A := λ out, (r, out).

Fixpoint io_for_each {A} (body : A → io unit) (l : list A) : io unit :=
  match l with
  | [] => io_ret tt
  | x :: l' => body x ;ᵢ io_for_each body l'
  end.

(** The lines a program prints when started on an empty output. *)
Definition run {A} (m : io A) : result A * list string := m [].

(** ** Insertion-ordered dictionaries *)

Definition odict : Type := list (string * string).

(** [d[k] = v]: an existing key keeps its place, a new one goes last. *)
Fixpoint odict_set (d : odict) (k v : string) : odict :=
  match d with
  | [] => [(k, v)]
  | (k', v') :: d' =>
      if decide (k' = k) then (k', v) :: d' else (k', v') :: odict_set d' k v
  end.

(** [d.items()] *)
Definition odict_items (d : odict) : list (string * string) := d.

(** ** [generate_x_error_table] *)

Module CommutationTable.

Definition header : string :=
  "| Error Code | Error Pauli String | S5(ZIZIZIZ) | S4(IZZIIZZ) | S3 (IIIZZZZ) | S2 (XIXIXIX) | S1 (IXXIIXX) | S0 (IIIXXXX) |".

Definition header_rule : string := "|---|---|---|---|---|---|---|---|".

(** The loop that fills [x_errors]. *)
Definition x_errors_loop : result odict :=
  for_each
    (λ i (x_errors : odict),
       error_string ← py_setitem (replicate 7 "I") (6 - Z.of_nat i) "X";
       Ok (odict_set x_errors ("X_" +:+ str i) (join EmptyString error_string)))
    (seq 0 7) [].

(** One iteration of [for error_name, error_string in x_errors.items()]. *)
Definition print_row (stabilizers : gmap string string)
    (item : string * string) : io unit :=
  let '(error_name, error_string) := item in
  let row_parts := ["$" +:+ error_name +:+ "$"; error_string] in
  row_parts ←ᵢ
    lift (for_each
      (λ stab_name (row_parts : list string),
         stab_string ← dict_get stabilizers stab_name;
         commutes ← pauli_commute error_string stab_string;
         if commutes : bool then Ok (row_parts ++ ["0 (commute)"])%list
         else Ok (row_parts ++ ["1 (anti-commute)"])%list)
      stab_names row_parts);
  print ("| " +:+ join " | " row_parts +:+ " |").

Definition generate_x_error_table : io unit :=
  let stabilizers := reference_stabilizers in
  x_errors ←ᵢ lift x_errors_loop;
  print header ;ᵢ
  print header_rule ;ᵢ
  io_for_each (print_row stabilizers) (odict_items x_errors).

(** *** The table as the interface describes it *)

(** The cell for one syndrome bit. *)
Definition cell (bit : ascii) : string :=
  if Ascii.eqb bit "0" then "0 (commute)" else "1 (anti-commute)".

(** A row: the label, the Pauli string, and one cell per generator, in the
    order of the syndrome bits. *)
Definition table_row (label pauli syndrome : string) : string :=
  "| " +:+ join " | " (label :: pauli :: map cell (chars syndrome)) +:+ " |".

(** One row per listed error, in the order of the list. *)
Definition rows_for (errors : list error_operator) : result (list string) :=
  for_each
    (λ e rows,
       syndrome ← get_syndrome reference_stabilizers e.2;
       Ok (rows ++ [table_row e.1 e.2 syndrome])%list)
    errors [].

(** The X errors as the table labels them, by ascending qubit index. *)
Definition x_table_errors : list error_operator :=
  map (λ i, ("$X_" +:+ str i +:+ "$", (single_qubit_error "X" i).2)) (seq 0 7).

End CommutationTable.

Export CommutationTable.

(** ** The script's entry point *)

Module Main.

(** Python's order on pairs of strings: by first component, then by
    second. *)
Definition tuple_le (a b : string * string) : Prop :=
  String.ltb a.1 b.1 ∨ (a.1 = b.1 ∧ String.le a.2 b.2).

#[global] Instance tuple_le_dec : RelDecision tuple_le.
Proof. intros a b. unfold tuple_le. apply _. Defined.

(** [sorted(items)].  The order is total and antisymmetric, so every
    sorting algorithm returns the same list. *)
Definition sorted (items : list (string * string)) : list (string * string) :=
  merge_sort tuple_le items.

(** [enumerate(l)] *)
Definition enumerate {A} (l : list A) : list (nat * A) := imap (λ i x, (i, x)) l.

(** One printed entry of the dictionary. *)
Definition entry_line (n : nat) (entry : nat * (string * string)) : string :=
  let '(i, (syndrome, error)) := entry in
  let comma := if (Z.of_nat i <? Z.of_nat n - 1)%Z then "," else EmptyString in
  "    '" +:+ syndrome +:+ "': '" +:+ error +:+ "'" +:+ comma.

(** The part of the entry point that prints a dictionary. *)
Definition print_dictionary (syndrome_dict : gmap string string) : io unit :=
  let sorted_syndromes := sorted (map_to_list syndrome_dict) in
  print "{" ;ᵢ
  io_for_each (λ entry, print (entry_line (length sorted_syndromes) entry))
    (enumerate sorted_syndromes) ;ᵢ
  print "}".

Definition newline : string := String "010"%char EmptyString.

Definition main : io unit :=
  generate_x_error_table ;ᵢ
  print (newline +:+ str_mul "=" 50) ;ᵢ
  print "SYNDROME DICTIONARY" ;ᵢ
  print (str_mul "=" 50) ;ᵢ
  syndrome_dict ←ᵢ lift generate_syndrome_dictionary;
  print_dictionary syndrome_dict.

End Main.

Export Main.

(** ** [accumulated_errors] (lab 2) *)

Module NoiseAggregation.

Section WithFloats.

(** Calibration values are floating-point numbers; their type and
    operations stay abstract. *)
Variable float : Type.
Variable float_add : float → float → float.
Variable float_of_int : Z → float.

(** A Python number: an [int] or a [float]. *)
Inductive number : Type :=
  | Int (z : Z)
  | Float (x : float).

(** [a + b], converting an [int] operand when the other is a [float]. *)
Definition add (a b : number) : number :=
  match a, b with
  | Int x, Int y => Int (x + y)
  | Int x, Float y => Float (float_add (float_of_int x) y)
  | Float x, Int y => Float (float_add x (float_of_int y))
  | Float x, Float y => Float (float_add x y)
  end.

Record GateParameter : Type := {
  param_name : string;
  param_value : number
}.

Record Gate : Type := {
  gate : string;
  gate_qubits : list nat;
  parameters : list GateParameter
}.

Record Properties : Type := {
  readout_error : nat → result number;
  gate_error : string → nat → result number;
  gates : list Gate
}.

(** [properties] is what [backend.properties()] returns. *)
Record Backend : Type := {
  properties : option Properties
}.

Record Instruction (Qubit : Type) : Type := {
  operation_name : string;
  qubits : list Qubit
}.
Arguments operation_name {Qubit} _.
Arguments qubits {Qubit} _.

(** [find_bit q] stands for [circuit.find_bit(q).index]. *)
Record Circuit (Qubit : Type) : Type := {
  num_qubits : nat;
  data : list (Instruction Qubit);
  find_bit : Qubit → result nat
}.
Arguments num_qubits {Qubit} _.
Arguments data {Qubit} _.
Arguments find_bit {Qubit} _ _.

(** The accumulators the instruction loop updates. *)
Record counters : Type := {
  acc_single_qubit_error : number;
  acc_two_qubit_error : number;
  single_qubit_gate_count : Z;
  two_qubit_gate_count : Z
}.

(** [for param in gate.parameters], up to its [break]. *)
Fixpoint first_gate_error (ps : list GateParameter) : option number :=
  match ps with
  | [] => None
  | param :: ps' =>
      if decide (param_name param = "gate_error") then Some (param_value param)
      else first_gate_error ps'
  end.

(** [for gate in properties.gates], up to [if found: break]. *)
Fixpoint search_gates (gs : list Gate) (name : string)
    (physical_qubits : list nat) (acc : number) : number :=
  match gs with
  | [] => acc
  | g :: gs' =>
      if decide (gate g = name ∧ gate_qubits g = physical_qubits) then
        match first_gate_error (parameters g) with
        | Some v => add acc v
        | None => search_gates gs' name physical_qubits acc
        end
      else search_gates gs' name physical_qubits acc
  end.

(** [[f(x) for x in l]] *)
Definition comprehension {A B} (f : A → result B) (l : list A)
  : result (list B) :=
  for_each (λ x acc, y ← f x; Ok (acc ++ [y]))%list l [].

(** [qubit_layout[idx]] *)
Definition layout_get (qubit_layout : list nat) (idx : nat) : result nat :=
  match qubit_layout !! idx with
  | Some q => Ok q
  | None => Raise IndexError
  end.

Section WithCircuit.

Context {Qubit : Type}.
Variable props : Properties.
Variable circuit : Circuit Qubit.
Variable qubit_layout : list nat.

(** The body of [for instruction in circuit.data]. *)
Definition instruction_step (instruction : Instruction Qubit)
    (c : counters) : result counters :=
  let num_qubits := length (qubits instruction) in
  if decide (operation_name instruction = "measure") then Ok c
  else if decide (num_qubits = 1) then
    let c := {| acc_single_qubit_error := acc_single_qubit_error c;
                acc_two_qubit_error := acc_two_qubit_error c;
                single_qubit_gate_count := single_qubit_gate_count c + 1;
                two_qubit_gate_count := two_qubit_gate_count c |} in
    match qubits instruction with
    | [] => Raise IndexError
    | q :: _ =>
        logical_index ← find_bit circuit q;
        if decide (logical_index < length qubit_layout) then
          physical_qubit ← layout_get qubit_layout logical_index;
          match gate_error props (operation_name instruction) physical_qubit with
          | Ok e =>
              Ok {| acc_single_qubit_error := add (acc_single_qubit_error c) e;
                    acc_two_qubit_error := acc_two_qubit_error c;
                    single_qubit_gate_count := single_qubit_gate_count c;
                    two_qubit_gate_count := two_qubit_gate_count c |}
          | Raise x => if is_exception x then Ok c else Raise x
          end
        else Ok c
    end
  else if decide (num_qubits = 2) then
    let c := {| acc_single_qubit_error := acc_single_qubit_error c;
                acc_two_qubit_error := acc_two_qubit_error c;
                single_qubit_gate_count := single_qubit_gate_count c;
                two_qubit_gate_count := two_qubit_gate_count c + 1 |} in
    logical_indices ← comprehension (find_bit circuit) (qubits instruction);
    if forallb (λ idx, idx <? length qubit_layout)%nat logical_indices then
      physical_qubits ← comprehension (layout_get qubit_layout) logical_indices;
      Ok {| acc_single_qubit_error := acc_single_qubit_error c;
            acc_two_qubit_error :=
              search_gates (gates props) (operation_name instruction)
                physical_qubits (acc_two_qubit_error c);
            single_qubit_gate_count := single_qubit_gate_count c;
            two_qubit_gate_count := two_qubit_gate_count c |}
    else Ok c
  else Ok c.

End WithCircuit.

Definition accumulated_errors {Qubit : Type} (backend : Backend)
    (circuit : Circuit Qubit) : result (list number) :=
  let initial :=
    {| acc_single_qubit_error := Int 0;
       acc_two_qubit_error := Int 0;
       single_qubit_gate_count := 0;
       two_qubit_gate_count := 0 |} in
  let acc_readout_error := Int 0 in
  match properties backend with
  | None =>
      (* No hardware properties available *)
      Ok [Int 0; Int 0; Int 0; Int 0; Int 0; Int 0]
  | Some props =>
      let n := num_qubits circuit in
      let qubit_layout := seq 0 n in
      acc_readout_error ←
        for_each (λ qubit acc, e ← readout_error props qubit; Ok (add acc e))
          qubit_layout acc_readout_error;
      c ← for_each (instruction_step props circuit qubit_layout)
             (data circuit) initial;
      let acc_total_error :=
        add (add (acc_two_qubit_error c) (acc_single_qubit_error c))
            acc_readout_error in
      Ok [acc_total_error;
          acc_two_qubit_error c;
          acc_single_qubit_error c;
          acc_readout_error;
          Int (single_qubit_gate_count c);
          Int (two_qubit_gate_count c)]
  end.

End WithFloats.

Arguments Int {float} z.
Arguments Float {float} x.
Arguments properties {float} _.
Arguments accumulated_errors {float} float_add float_of_int {Qubit} backend circuit.

End NoiseAggregation.

(** *** Reading a circuit *)

(** The number of instructions, measurements apart, that act on [k]
    qubits. *)
Definition gates_on {Qubit : Type} (k : nat)
    (instructions : list (NoiseAggregation.Instruction Qubit)) : Z :=
  Z.of_nat
    (length
       (filter
          (λ ins, NoiseAggregation.operation_name Qubit ins ≠ "measure"
                  ∧ length (NoiseAggregation.qubits Qubit ins) = k)
          instructions)).

(** The circuit without its measurements. *)
Definition without_measurements {Qubit : Type}
    (circuit : NoiseAggregation.Circuit Qubit)
  : NoiseAggregation.Circuit Qubit :=
  {| NoiseAggregation.num_qubits := NoiseAggregation.num_qubits Qubit circuit;
     NoiseAggregation.data :=
       filter (λ ins, NoiseAggregation.operation_name Qubit ins ≠ "measure")
         (NoiseAggregation.data Qubit circuit);
     NoiseAggregation.find_bit := NoiseAggregation.find_bit Qubit circuit |}.

(** A calibration entry that counts for the gate [name] on
    [physical_qubits]: same name, same qubits in the same order, and a
    [gate_error] parameter. *)
Definition calibrates {float : Type} (name : string)
    (physical_qubits : list nat) (g : NoiseAggregation.Gate float) : Prop :=
  NoiseAggregation.gate float g = name
  ∧ NoiseAggregation.gate_qubits float g = physical_qubits
  ∧ is_Some (NoiseAggregation.first_gate_error float
               (NoiseAggregation.parameters float g)).

(** *** A sample backend and circuit *)

(** The circuit of the test script without its barrier: a Hadamard, a
    controlled NOT and the two measurements, qubits being their own
    indices. *)
Definition sample_circuit : NoiseAggregation.Circuit nat :=
  {| NoiseAggregation.num_qubits := 2;
     NoiseAggregation.data :=
       [ {| NoiseAggregation.operation_name := "h";
            NoiseAggregation.qubits := [0%nat] |};
         {| NoiseAggregation.operation_name := "cx";
            NoiseAggregation.qubits := [0%nat; 1%nat] |};
         {| NoiseAggregation.operation_name := "measure";
            NoiseAggregation.qubits := [0%nat] |};
         {| NoiseAggregation.operation_name := "measure";
            NoiseAggregation.qubits := [1%nat] |} ];
     NoiseAggregation.find_bit := λ q, Ok q |}.

Definition cx_entry (qs : list nat) (parameter : string) (value : Q)
  : NoiseAggregation.Gate Q :=
  {| NoiseAggregation.gate := "cx";
     NoiseAggregation.gate_qubits := qs;
     NoiseAggregation.parameters :=
       [ {| NoiseAggregation.param_name := parameter;
            NoiseAggregation.param_value := NoiseAggregation.Float value |} ]
  |}.

(** Calibration data over the rationals: every readout error is 1/100, no
    single-qubit gate error is known, and the controlled NOT has several
    entries. *)
Definition sample_properties : NoiseAggregation.Properties Q :=
  {| NoiseAggregation.readout_error :=
       λ _, Ok (NoiseAggregation.Float (1 # 100)%Q);
     NoiseAggregation.gate_error := λ _ _, Raise (OtherError "no such gate");
     NoiseAggregation.gates :=
       [ cx_entry [1%nat; 0%nat] "gate_error" (1 # 40)%Q;
         cx_entry [0%nat; 1%nat] "gate_length" (3 # 1)%Q;
         cx_entry [0%nat; 1%nat] "gate_error" (1 # 50)%Q;
         cx_entry [0%nat; 1%nat] "gate_error" (1 # 60)%Q ] |}.

(** * Properties *)

(** ** Helper facts about the error monad and strings *)

Lemma for_each_app {A S} (body : A → S → result S) (l1 l2 : list A) (s : S) :
  for_each body (l1 ++ l2) s = (s' ← for_each body l1 s; for_each body l2 s').
Proof.
  revert s. induction l1 as [|x l1 IH]; intros s; simpl; [done|].
  unfold mbind, result_mbind, result_bind.
  destruct (body x s) as [s'|e]; [apply IH | done].
Qed.

Lemma for_each_cons {A S} (body : A → S → result S) (x : A) (l : list A)
    (s : S) :
  for_each body (x :: l) s
  = match body x s with
    | Ok s' => for_each body l s'
    | Raise e => Raise e
    end.
Proof. reflexivity. Qed.

Lemma returns_elim {A} (m : result A) (P : A → Prop) :
  returns m P → ∃ a, m = Ok a ∧ P a.
Proof. destruct m as [a|]; simpl; [eauto | done]. Qed.

Lemma len_chars (s : string) : len s = length (chars s).
Proof. unfold len, chars. induction s; simpl; auto. Qed.

Lemma parity_test (n : nat) : (n mod 2 =? 0)%nat = true ↔ Nat.Even n.
Proof.
  rewrite Nat.eqb_eq. split.
  - intros H. exists (n / 2). pose proof (Nat.div_mod_eq n 2). lia.
  - intros [m ->]. rewrite Nat.mul_comm. apply Nat.Div0.mod_mul.
Qed.

(** ** The commutation test *)

Section CommutationFacts.

Lemma count_loop_filter (ps : list (ascii * ascii)) (n : nat) :
  count_loop ps n
  = n + length (filter (λ p, anti_commute_at p.1 p.2 = true) ps).
Proof.
  revert n. induction ps as [|[p1 p2] ps IH]; intros n; simpl; [lia|].
  rewrite IH, filter_cons. simpl.
  destruct (anti_commute_at p1 p2); simpl; lia.
Qed.

(** On the Pauli alphabet the source's three-way test is the
    specification's "both non-identity and different". *)
Lemma anti_commute_at_alphabet (p1 p2 : ascii) :
  pauli_symbol p1 → pauli_symbol p2 →
  anti_commute_at p1 p2 = locally_anticommute (p1, p2).
Proof.
  intros [->|[->|[->| ->]]] [->|[->|[->| ->]]]; reflexivity.
Qed.

Lemma anti_commute_at_sym (p1 p2 : ascii) :
  anti_commute_at p1 p2 = anti_commute_at p2 p1.
Proof.
  unfold anti_commute_at, py_in, existsb.
  destruct (Ascii.eqb_spec p1 "X"), (Ascii.eqb_spec p1 "Y"),
    (Ascii.eqb_spec p1 "Z"), (Ascii.eqb_spec p2 "X"),
    (Ascii.eqb_spec p2 "Y"), (Ascii.eqb_spec p2 "Z");
    subst; try discriminate; reflexivity.
Qed.

Lemma count_positions_alphabet (la lb : list ascii) :
  Forall pauli_symbol la → Forall pauli_symbol lb →
  length (filter (λ p, anti_commute_at p.1 p.2 = true) (zip la lb))
  = length (filter (λ p, locally_anticommute p = true) (zip la lb)).
Proof.
  intros Ha. revert lb. induction Ha as [|a la Ha _ IH]; intros lb Hb; [done|].
  destruct Hb as [|b lb Hb Hlb]; [done|]. simpl.
  rewrite !filter_cons. simpl.
  rewrite (anti_commute_at_alphabet a b Ha Hb).
  specialize (IH lb Hlb).
  destruct (locally_anticommute (a, b)); repeat case_decide; simpl;
    try done; lia.
Qed.

Lemma count_positions_sym (la lb : list ascii) :
  length (filter (λ p, anti_commute_at p.1 p.2 = true) (zip la lb))
  = length (filter (λ p, anti_commute_at p.1 p.2 = true) (zip lb la)).
Proof.
  revert lb. induction la as [|a la IH]; intros [|b lb]; try done. simpl.
  rewrite !filter_cons. simpl. rewrite (anti_commute_at_sym b a).
  specialize (IH lb).
  destruct (anti_commute_at a b); repeat case_decide; simpl; try done; lia.
Qed.

Lemma pauli_commute_equal_length (a b : string) :
  len a = len b →
  pauli_commute a b
  = Ok (length (filter (λ p, anti_commute_at p.1 p.2 = true)
                  (zip (chars a) (chars b))) mod 2 =? 0)%nat.
Proof.
  intros Hlen. unfold pauli_commute.
  rewrite Hlen, Nat.eqb_refl. simpl. by rewrite count_loop_filter.
Qed.

Lemma pauli_commute_unequal_length (a b : string) :
  len a ≠ len b → pauli_commute a b = Raise (ValueError length_message).
Proof.
  intros Hlen. unfold pauli_commute.
  by destruct (Nat.eqb_spec (len a) (len b)).
Qed.

End CommutationFacts.

(** Membership of a string literal in the Pauli alphabet. *)
Ltac pauli_string_literal :=
  unfold pauli_string; cbv [chars String.list_ascii_of_string];
  repeat (apply List.Forall_cons; [unfold pauli_symbol; auto|]);
  apply List.Forall_nil.

(** C4. For equal-length strings over the alphabet I, X, Y, Z the test
    returns [True] exactly when the number of positions whose two symbols
    are both non-identity and different is even. *)
Theorem pauli_commute_even_positions (a b : string) :
  len a = len b → pauli_string a → pauli_string b →
  ∃ r : bool,
    pauli_commute a b = Ok r
    ∧ (r = true ↔ Nat.Even (anticommuting_positions a b)).
Proof.
  intros Hlen Ha Hb. eexists. split.
  - by apply pauli_commute_equal_length.
  - rewrite parity_test. unfold anticommuting_positions.
    by rewrite (count_positions_alphabet _ _ Ha Hb).
Qed.

Lemma pauli_commute_even_positions_witness :
  ∃ r : bool,
    pauli_commute "IIIIIIY" "ZIZIZIZ" = Ok r
    ∧ (r = true ↔ Nat.Even (anticommuting_positions "IIIIIIY" "ZIZIZIZ")).
Proof.
  apply pauli_commute_even_positions.
  - reflexivity.
  - pauli_string_literal.
  - pauli_string_literal.
Defined.

(** C5. The test raises (a [ValueError]) exactly when the two strings
    differ in length: on unequal lengths it raises instead of comparing a
    truncated prefix, on equal lengths it returns a boolean. *)
Theorem pauli_commute_raises_iff_length_mismatch (a b : string) :
  ((∃ e, pauli_commute a b = Raise e) ↔ len a ≠ len b)
  ∧ (len a ≠ len b → pauli_commute a b = Raise (ValueError length_message))
  ∧ (len a = len b → ∃ r : bool, pauli_commute a b = Ok r).
Proof.
  split; [split|split].
  - intros [e He] Hlen.
    by rewrite (pauli_commute_equal_length a b Hlen) in He.
  - intros Hlen. eexists. by apply pauli_commute_unequal_length.
  - apply pauli_commute_unequal_length.
  - intros Hlen. eexists. by apply pauli_commute_equal_length.
Qed.

Lemma pauli_commute_raises_iff_length_mismatch_witness :
  pauli_commute "XZ" "X" = Raise (ValueError length_message)
  ∧ ∃ r : bool, pauli_commute "XZ" "ZX" = Ok r.
Proof.
  split.
  - apply (pauli_commute_raises_iff_length_mismatch "XZ" "X"). simpl. lia.
  - apply (pauli_commute_raises_iff_length_mismatch "XZ" "ZX"). reflexivity.
Defined.

(** C8. The test is symmetric on strings of equal length. *)
Theorem pauli_commute_symmetric (a b : string) :
  len a = len b →
  ∃ r : bool, pauli_commute a b = Ok r ∧ pauli_commute b a = Ok r.
Proof.
  intros Hlen. eexists. split.
  - by apply pauli_commute_equal_length.
  - rewrite (pauli_commute_equal_length b a (eq_sym Hlen)).
    by rewrite count_positions_sym.
Qed.

Lemma pauli_commute_symmetric_witness :
  ∃ r : bool,
    pauli_commute "IIIIIIX" "ZIZIZIZ" = Ok r
    ∧ pauli_commute "ZIZIZIZ" "IIIIIIX" = Ok r.
Proof. apply pauli_commute_symmetric. reflexivity. Defined.

(** ** The syndrome dictionary *)

Section TableFacts.

Variable stabilizers : gmap string string.

Lemma py_setitem_qubit (i : nat) (symbol : string) :
  (i ≤ 6)%nat →
  py_setitem (replicate 7 "I") (6 - Z.of_nat i) symbol
  = Ok (<[6 - i := symbol]> (replicate 7 "I")).
Proof.
  intros Hi. unfold py_setitem.
  rewrite length_replicate.
  assert ((6 - Z.of_nat i <? 0)%Z = false) as Hlow
    by (apply Z.ltb_ge; lia).
  assert ((Z.of_nat 7 <=? 6 - Z.of_nat i)%Z = false) as Hhigh
    by (apply Z.leb_gt; lia).
  cbv zeta. rewrite !Hlow, Hhigh. cbn [orb]. do 2 f_equal. lia.
Qed.

(** One pass of the loop body performs the X, Y and Z insertions of its
    qubit, in that order. *)
Lemma loop_body_inserts (i : nat) (d : gmap string string) :
  (i ≤ 6)%nat →
  loop_body stabilizers i d
  = for_each (insert_error stabilizers)
      [single_qubit_error "X" i; single_qubit_error "Y" i;
       single_qubit_error "Z" i] d.
Proof.
  intros Hi. unfold loop_body, insert_error, single_qubit_error.
  rewrite !py_setitem_qubit by done.
  cbn [for_each fst snd mbind result_mbind result_bind mret result_ret].
  repeat
    match goal with
    | |- context [get_syndrome stabilizers ?e] =>
        destruct (get_syndrome stabilizers e); [|reflexivity]
    end.
  reflexivity.
Qed.

Lemma for_each_loop_body (l : list nat) (d : gmap string string) :
  Forall (λ i, i ≤ 6)%nat l →
  for_each (loop_body stabilizers) l d
  = for_each (insert_error stabilizers)
      (flat_map
         (λ i, [single_qubit_error "X" i; single_qubit_error "Y" i;
                single_qubit_error "Z" i]) l) d.
Proof.
  intros Hl. revert d. induction Hl as [|i l Hi _ IH]; intros d; [done|].
  cbn [flat_map]. rewrite for_each_app, <- loop_body_inserts by done.
  cbn [for_each]. unfold mbind, result_mbind, result_bind.
  destruct (loop_body stabilizers i d); [apply IH | done].
Qed.

(** The builder is the left-to-right insertion of the enumerated errors
    into an empty dictionary. *)
Lemma syndrome_dictionary_enumerated :
  syndrome_dictionary stabilizers
  = for_each (insert_error stabilizers) enumerated_errors ∅.
Proof.
  unfold syndrome_dictionary, enumerated_errors.
  rewrite for_each_app, for_each_loop_body.
  - unfold mbind, result_mbind, result_bind.
    destruct (for_each (insert_error stabilizers) _ ∅); [|done].
    cbn [for_each]. unfold insert_error, mbind, result_mbind, result_bind.
    cbn [fst snd]. by destruct (get_syndrome stabilizers "IIIIIII").
  - repeat (apply List.Forall_cons; [lia|]). apply List.Forall_nil.
Qed.

Lemma insert_error_unfold (e : error_operator) (d : gmap string string) :
  insert_error stabilizers e d
  = match get_syndrome stabilizers e.2 with
    | Ok s => Ok (<[s := e.1]> d)
    | Raise x => Raise x
    end.
Proof. reflexivity. Qed.

(** Insertions under other syndromes leave an entry alone. *)
Lemma for_each_insert_other (errors : list error_operator)
    (d0 d : gmap string string) (s : string) :
  for_each (insert_error stabilizers) errors d0 = Ok d →
  (∀ e, e ∈ errors → get_syndrome stabilizers e.2 ≠ Ok s) →
  d !! s = d0 !! s.
Proof.
  revert d0. induction errors as [|e errors IH]; intros d0 Hrun Hother.
  - by injection Hrun as ->.
  - rewrite for_each_cons, insert_error_unfold in Hrun.
    destruct (get_syndrome stabilizers e.2) as [s'|] eqn:Hs'; [|done].
    rewrite (IH _ Hrun); [|intros e' He'; apply Hother; by right].
    apply lookup_insert_ne. intros ->.
    by apply (Hother e); [left|].
Qed.

(** An insertion that no later one overrides is what the final dictionary
    holds. *)
Lemma for_each_insert_last (before after : list error_operator)
    (e : error_operator) (d0 d : gmap string string) (s : string) :
  for_each (insert_error stabilizers) (before ++ e :: after) d0 = Ok d →
  get_syndrome stabilizers e.2 = Ok s →
  (∀ e', e' ∈ after → get_syndrome stabilizers e'.2 ≠ Ok s) →
  d !! s = Some e.1.
Proof.
  intros Hrun Hs Hafter. rewrite for_each_app in Hrun.
  unfold mbind, result_mbind, result_bind in Hrun.
  destruct (for_each (insert_error stabilizers) before d0) as [d1|]; [|done].
  rewrite for_each_cons, insert_error_unfold, Hs in Hrun.
  rewrite (for_each_insert_other _ _ _ _ Hrun Hafter).
  apply lookup_insert_eq.
Qed.

End TableFacts.

Lemma last_label_wins_aux (stabilizers d : gmap string string)
    (before after : list error_operator) (e : error_operator) (s : string) :
  syndrome_dictionary stabilizers = Ok d →
  enumerated_errors = (before ++ e :: after)%list →
  get_syndrome stabilizers e.2 = Ok s →
  (∀ e', e' ∈ after → get_syndrome stabilizers e'.2 ≠ Ok s) →
  d !! s = Some e.1.
Proof.
  intros Hrun Hsplit Hs Hafter.
  rewrite syndrome_dictionary_enumerated, Hsplit in Hrun.
  by eapply for_each_insert_last.
Qed.

(** C1. For the reference code the 22 enumerated operators (21 of weight
    one and the identity) have 22 pairwise distinct syndromes against the
    six generators: the dictionary has 22 entries, its keys are those
    syndromes, and no insertion meets a key that is already bound. *)
Theorem reference_syndromes_distinct :
  ∃ (d : gmap string string) (syndromes : list string),
    generate_syndrome_dictionary = Ok d
    ∧ length enumerated_errors = 22
    ∧ syndromes_of reference_stabilizers enumerated_errors = Ok syndromes
    ∧ length syndromes = 22
    ∧ NoDup syndromes
    ∧ size d = 22
    ∧ dom d = list_to_set syndromes
    ∧ collisions reference_stabilizers enumerated_errors ∅ = [].
Proof.
  assert (returns generate_syndrome_dictionary (λ d,
            returns (syndromes_of reference_stabilizers enumerated_errors)
              (λ syndromes,
                 length syndromes = 22 ∧ NoDup syndromes ∧ size d = 22
                 ∧ dom d = list_to_set syndromes))) as Hcheck
    by compute_done.
  apply returns_elim in Hcheck as (d & Hd & Hcheck).
  apply returns_elim in Hcheck as (syndromes & Hs & Hlen & Hnodup & Hsize & Hdom).
  exists d, syndromes. repeat split; done.
Qed.

(** With the stabilizers as a parameter, every insertion is an assignment
    that overwrites: an enumerated error whose syndrome no later error of
    the enumeration produces is the one the dictionary holds under that
    syndrome, whatever was stored there by earlier errors. *)
Theorem last_label_wins (stabilizers d : gmap string string)
    (before after : list error_operator) (e : error_operator) (s : string) :
  syndrome_dictionary stabilizers = Ok d →
  enumerated_errors = (before ++ e :: after)%list →
  get_syndrome stabilizers e.2 = Ok s →
  (∀ e', e' ∈ after → get_syndrome stabilizers e'.2 ≠ Ok s) →
  d !! s = Some e.1.
Proof.
  intros Hrun Hsplit Hs Hafter.
  rewrite syndrome_dictionary_enumerated, Hsplit in Hrun.
  by eapply for_each_insert_last.
Qed.

Lemma last_label_wins_witness :
  match syndrome_dictionary z_only_stabilizers with
  | Ok d => d !! "111111" = Some "Y0"
  | Raise _ => False
  end.
Proof.
  destruct (syndrome_dictionary z_only_stabilizers) as [d|x] eqn:Hrun.
  - apply (last_label_wins z_only_stabilizers d
             [("X0", "IIIIIIX")] (drop 2 enumerated_errors)
             ("Y0", "IIIIIIY") "111111" Hrun).
    + reflexivity.
    + compute_done.
    + intros e' He'. vm_compute in He'.
      repeat (apply elem_of_cons in He' as [->|He'];
              [vm_compute; discriminate|]).
      by apply elem_of_nil in He'.
  - vm_compute in Hrun. discriminate.
Defined.

(** C6. For each of the 22 enumerated operators of the reference code, its
    syndrome against the six generators is a key of the built dictionary,
    and the value stored there is the operator's own label. *)
Theorem reference_round_trip (e : error_operator) :
  e ∈ enumerated_errors →
  ∃ (d : gmap string string) (s : string),
    generate_syndrome_dictionary = Ok d
    ∧ get_syndrome reference_stabilizers e.2 = Ok s
    ∧ d !! s = Some e.1.
Proof.
  intros He.
  assert (returns generate_syndrome_dictionary (λ d,
            Forall (λ e : error_operator,
                      returns (get_syndrome reference_stabilizers e.2)
                        (λ s, d !! s = Some e.1))
              enumerated_errors)) as Hcheck by compute_done.
  apply returns_elim in Hcheck as (d & Hd & Hall).
  rewrite Forall_forall in Hall.
  specialize (Hall e He).
  apply returns_elim in Hall as (s & Hs & Hlookup).
  by exists d, s.
Qed.

Lemma reference_round_trip_witness :
  ∃ (d : gmap string string) (s : string),
    generate_syndrome_dictionary = Ok d
    ∧ get_syndrome reference_stabilizers "IIIYIII" = Ok s
    ∧ d !! s = Some "Y3".
Proof.
  apply (reference_round_trip ("Y3", "IIIYIII")).
  vm_compute. repeat constructor.
Defined.

(** C7. Any two generators of the reference set commute. *)
Theorem reference_generators_commute (ni nj si sj : string) :
  reference_stabilizers !! ni = Some si →
  reference_stabilizers !! nj = Some sj →
  pauli_commute si sj = Ok true.
Proof.
  intros Hi Hj.
  assert (Forall (λ p : string * string,
            Forall (λ q : string * string, pauli_commute p.2 q.2 = Ok true)
              (map_to_list reference_stabilizers))
            (map_to_list reference_stabilizers)) as Hall
    by (vm_compute; repeat constructor).
  apply elem_of_map_to_list in Hi, Hj.
  rewrite Forall_forall in Hall. specialize (Hall _ Hi).
  rewrite Forall_forall in Hall. exact (Hall _ Hj).
Qed.

Lemma reference_generators_commute_witness :
  pauli_commute "ZIZIZIZ" "IXXIIXX" = Ok true.
Proof.
  apply (reference_generators_commute "S5" "S1"); compute_done.
Defined.

(** ** The commutation table *)

(** C3, as the source has it.  After its two header lines the table has one
    row for each of the seven weight-1 X errors and no other row: the row
    of qubit [i] carries the label [$X_i$], the Pauli string, and one
    "0 (commute)" or "1 (anti-commute)" cell per generator in the order
    S5 .. S0; rows are in ascending qubit order. *)
Theorem x_error_table_rows :
  ∃ rows : list string,
    run generate_x_error_table = (Ok tt, header :: header_rule :: rows)
    ∧ rows_for x_table_errors = Ok rows
    ∧ length rows = 7.
Proof.
  eexists. split; [vm_compute; reflexivity|].
  split; [vm_compute; reflexivity | reflexivity].
Qed.

(** C3, as stated, fails: the table has seven rows where the enumeration
    has 22 operators; the rows of Y0 and of the identity, for instance, are
    not printed. *)
Lemma x_error_table_lacks_rows :
  ∃ (out rows : list string),
    run generate_x_error_table = (Ok tt, out)
    ∧ rows_for enumerated_errors = Ok rows
    ∧ length rows = 22
    ∧ length (drop 2 out) = 7
    ∧ drop 2 out ≠ rows
    ∧ (table_row "Y0" "IIIIIIY" "111111" ∈ rows)
    ∧ (table_row "Y0" "IIIIIIY" "111111" ∉ out)
    ∧ (table_row "I" "IIIIIII" "000000" ∈ rows)
    ∧ (table_row "I" "IIIIIII" "000000" ∉ out).
Proof.
  eexists _, _. split; [vm_compute; reflexivity|].
  split; [vm_compute; reflexivity|].
  split; [reflexivity|]. split; [reflexivity|].
  split; [discriminate|].
  split; [compute_done|]. split; [compute_done|].
  split; compute_done.
Qed.

(** ** The printed dictionary *)

Section OrderFacts.

Lemma string_compare_refl (x : string) : String.compare x x = Eq.
Proof.
  pose proof (String.compare_antisym x x) as H.
  by destruct (String.compare x x).
Qed.

Lemma string_ltb_le (x y : string) :
  String.ltb x y ↔ String.le x y ∧ x ≠ y.
Proof.
  unfold String.le, String.ltb, String.leb. split.
  - intros Hlt. split; [by destruct (String.compare x y)|].
    intros ->. by rewrite string_compare_refl in Hlt.
  - intros [Hle Hne].
    destruct (String.compare x y) eqn:Hc; [|done|done].
    by apply String.compare_eq_iff in Hc.
Qed.

Lemma string_ltb_trans (x y z : string) :
  String.ltb x y → String.ltb y z → String.ltb x z.
Proof.
  rewrite !string_ltb_le. intros [Hxy Hne] [Hyz _]. split.
  - by etrans.
  - intros ->. apply Hne. by apply (anti_symm String.le).
Qed.

#[local] Instance tuple_le_trans : Transitive tuple_le.
Proof.
  intros a b c [Hab|[Hab Hab2]] [Hbc|[Hbc Hbc2]]; unfold tuple_le.
  - left. by eapply string_ltb_trans.
  - left. by rewrite <- Hbc.
  - left. by rewrite Hab.
  - right. split; [congruence | by etrans].
Qed.

#[local] Instance tuple_le_total : Total tuple_le.
Proof.
  intros a b. unfold tuple_le.
  destruct (decide (a.1 = b.1)) as [Heq|Hne].
  - destruct (total String.le a.2 b.2); [left|right]; right; auto.
  - destruct (total String.le a.1 b.1) as [Hle|Hle]; [left|right]; left;
      apply string_ltb_le; auto.
Qed.

#[local] Instance tuple_le_antisymm : AntiSymm (=) tuple_le.
Proof.
  intros [a1 a2] [b1 b2] [Hab|[Hab Hab2]] [Hba|[Hba Hba2]]; simpl in *.
  - apply string_ltb_le in Hab as [Hab Hne], Hba as [Hba _].
    destruct Hne. by apply (anti_symm String.le).
  - apply string_ltb_le in Hab as [_ Hne]. by destruct Hne.
  - apply string_ltb_le in Hba as [_ Hne]. by destruct Hne.
  - f_equal; [done | by apply (anti_symm String.le)].
Qed.

(** Whatever algorithm sorts the items, the outcome is the list [sorted]
    computes. *)
Lemma sorted_canonical (items l : list (string * string)) :
  l ≡ₚ items → StronglySorted tuple_le l → l = sorted items.
Proof.
  intros Hperm Hsorted.
  apply (StronglySorted_unique tuple_le); [done| |].
  - apply StronglySorted_merge_sort; apply _.
  - unfold sorted. by rewrite merge_sort_Permutation.
Qed.

(** Sorted pairs whose keys are pairwise distinct are strictly ascending
    by key. *)
Lemma sorted_distinct_keys (items : list (string * string)) :
  StronglySorted tuple_le items → NoDup items.*1 →
  StronglySorted (λ a b, String.ltb a.1 b.1) items.
Proof.
  induction 1 as [|a items Hsorted IH Hall]; intros Hnodup;
    [constructor|].
  apply NoDup_cons in Hnodup as [Hnotin Hnodup].
  constructor; [by apply IH|].
  apply Forall_forall. intros b Hb.
  rewrite Forall_forall in Hall.
  destruct (Hall b Hb) as [Hlt|[Heq _]]; [done|].
  exfalso. apply Hnotin. rewrite Heq. by apply list_elem_of_fmap_2.
Qed.

Lemma sorted_items_ascending (d : gmap string string) :
  sorted (map_to_list d) ≡ₚ map_to_list d
  ∧ StronglySorted (λ a b, String.ltb a.1 b.1) (sorted (map_to_list d)).
Proof.
  split; [apply merge_sort_Permutation|].
  apply sorted_distinct_keys; [apply StronglySorted_merge_sort; apply _|].
  unfold sorted. rewrite merge_sort_Permutation.
  apply NoDup_fst_map_to_list.
Qed.

End OrderFacts.

Section OutputFacts.

Lemma io_for_each_print {A} (f : A → string) (l : list A)
    (out : list string) :
  io_for_each (λ x, print (f x)) l out = (Ok tt, (out ++ map f l)%list).
Proof.
  revert out. induction l as [|x l IH]; intros out; simpl.
  - unfold io_ret. by rewrite app_nil_r.
  - unfold io_bind, print at 1. rewrite IH. by rewrite <- app_assoc.
Qed.

Lemma print_dictionary_lines (d : gmap string string) (out : list string) :
  print_dictionary d out
  = (Ok tt,
     (out ++ ["{"]
      ++ map (entry_line (length (sorted (map_to_list d))))
           (enumerate (sorted (map_to_list d)))
      ++ ["}"])%list).
Proof.
  unfold print_dictionary, io_bind. unfold print at 1. cbv zeta.
  rewrite io_for_each_print. unfold print.
  by rewrite <- !app_assoc.
Qed.

End OutputFacts.

(** C9. The entry point prints the dictionary between braces, one line per
    entry, and the entries are listed by strictly ascending syndrome key
    (the lexicographic order of the bit strings): the printed list is the
    one rearrangement of the dictionary's items that is sorted. *)
Theorem main_prints_sorted_dictionary :
  ∃ (d : gmap string string) (before : list string)
    (items : list (string * string)),
    generate_syndrome_dictionary = Ok d
    ∧ run main
      = (Ok tt,
         (before ++ ["{"]
          ++ map (entry_line (length items)) (enumerate items) ++ ["}"])%list)
    ∧ items ≡ₚ map_to_list d
    ∧ StronglySorted (λ a b, String.ltb a.1 b.1) items
    ∧ length items = 22.
Proof.
  assert (returns generate_syndrome_dictionary (λ d, size d = 22)) as Hd
    by compute_done.
  apply returns_elim in Hd as (d & Hd & Hsize).
  assert (∃ table, run generate_x_error_table = (Ok tt, table))
    as [table Htable] by (eexists; vm_compute; reflexivity).
  exists d, (table ++ [newline +:+ str_mul "=" 50; "SYNDROME DICTIONARY";
                        str_mul "=" 50])%list, (sorted (map_to_list d)).
  destruct (sorted_items_ascending d) as [Hperm Hsorted].
  split; [done|]. split; [|split; [done|split; [done|]]].
  - unfold run, main in *. unfold io_bind at 1. rewrite Htable.
    unfold io_bind at 1, print at 1.
    unfold io_bind at 1, print at 1.
    unfold io_bind at 1, print at 1.
    unfold io_bind at 1, lift. rewrite Hd.
    rewrite print_dictionary_lines. by rewrite <- !app_assoc.
  - by rewrite Hperm, length_map_to_list.
Qed.

(** ** The noise-aggregation helper *)

Import NoiseAggregation.

(** C10. When [backend.properties()] is [None], [accumulated_errors] returns
    six integer zeros, whatever the circuit is: no field of the circuit
    takes part in the result, and a circuit whose accessors would raise
    gives the same list. *)
Theorem accumulated_errors_without_properties {float Qubit : Type}
    (float_add : float → float → float) (float_of_int : Z → float)
    (backend : Backend float) (circuit : Circuit Qubit) :
  properties backend = None →
  accumulated_errors float_add float_of_int backend circuit
  = Ok [Int 0; Int 0; Int 0; Int 0; Int 0; Int 0]
  ∧ ∀ (Qubit' : Type) (circuit' : Circuit Qubit'),
      accumulated_errors float_add float_of_int backend circuit'
      = accumulated_errors float_add float_of_int backend circuit.
Proof.
  intros Hnone. unfold accumulated_errors. rewrite Hnone. by split.
Qed.

Lemma accumulated_errors_without_properties_witness :
  accumulated_errors Qplus inject_Z
    {| properties := None |}
    {| num_qubits := 2;
       data := [ {| operation_name := "h"; qubits := [0%nat] |};
                 {| operation_name := "cx"; qubits := [0%nat; 1%nat] |};
                 {| operation_name := "measure"; qubits := [0%nat] |};
                 {| operation_name := "measure"; qubits := [1%nat] |} ];
       find_bit := λ _, Raise (OtherError "no such bit") |}
  = Ok [Int 0; Int 0; Int 0; Int 0; Int 0; Int 0].
Proof.
  apply accumulated_errors_without_properties. reflexivity.
Defined.

(** * Further properties of the commutation test *)

Section CommutationAlgebra.

Lemma chars_app (a b : string) : chars (a +:+ b) = (chars a ++ chars b)%list.
Proof. unfold chars. induction a; simpl; [done | by f_equal]. Qed.

Lemma len_app (a b : string) : len (a +:+ b) = len a + len b.
Proof. rewrite !len_chars, chars_app. apply length_app. Qed.

Lemma chars_map_chars (f : ascii → ascii) (s : string) :
  chars (map_chars f s) = map f (chars s).
Proof.
  unfold map_chars, chars. apply String.list_ascii_of_string_of_list_ascii.
Qed.

Lemma parity_even (n : nat) : (n mod 2 =? 0)%nat = Nat.even n.
Proof.
  apply eq_true_iff_eq. rewrite parity_test.
  rewrite <- Nat.even_spec. by destruct (Nat.even n).
Qed.

Lemma anti_commute_at_trivial_l (p1 p2 : ascii) :
  non_trivial p1 = false → anti_commute_at p1 p2 = false.
Proof.
  unfold non_trivial, anti_commute_at, py_in, existsb.
  destruct (Ascii.eqb p1 "X"), (Ascii.eqb p1 "Y"), (Ascii.eqb p1 "Z");
    simpl; try done.
Qed.

Lemma anti_commute_at_same (p : ascii) : anti_commute_at p p = false.
Proof.
  unfold anti_commute_at, py_in, existsb.
  destruct (Ascii.eqb_spec p "X"), (Ascii.eqb_spec p "Y"),
    (Ascii.eqb_spec p "Z"); subst; try discriminate; reflexivity.
Qed.

Lemma anti_commute_at_as_pauli (p1 p2 : ascii) :
  anti_commute_at (as_pauli p1) (as_pauli p2) = anti_commute_at p1 p2.
Proof.
  unfold as_pauli, non_trivial, anti_commute_at, py_in, existsb.
  destruct (Ascii.eqb_spec p1 "X"), (Ascii.eqb_spec p1 "Y"),
    (Ascii.eqb_spec p1 "Z"), (Ascii.eqb_spec p2 "X"),
    (Ascii.eqb_spec p2 "Y"), (Ascii.eqb_spec p2 "Z");
    subst; try discriminate; reflexivity.
Qed.

(** The number of locally anti-commuting positions. *)
Lemma count_cons (p1 p2 : ascii) (ps : list (ascii * ascii)) :
  length (filter (λ p, anti_commute_at p.1 p.2 = true) ((p1, p2) :: ps))
  = (if anti_commute_at p1 p2 then 1 else 0)
    + length (filter (λ p, anti_commute_at p.1 p.2 = true) ps).
Proof.
  rewrite filter_cons. simpl. by destruct (anti_commute_at p1 p2).
Qed.

Lemma count_trivial_l (la lb : list ascii) :
  Forall (λ c, non_trivial c = false) la →
  length (filter (λ p, anti_commute_at p.1 p.2 = true) (zip la lb)) = 0.
Proof.
  intros Hla. revert lb. induction Hla as [|a la Ha _ IH]; intros [|b lb];
    try done.
  cbn [zip zip_with]. rewrite count_cons, anti_commute_at_trivial_l by done.
  apply IH.
Qed.

Lemma count_same (l : list ascii) :
  length (filter (λ p, anti_commute_at p.1 p.2 = true) (zip l l)) = 0.
Proof.
  induction l as [|a l IH]; [done|].
  cbn [zip zip_with]. by rewrite count_cons, anti_commute_at_same.
Qed.

Lemma count_as_pauli (la lb : list ascii) :
  length (filter (λ p, anti_commute_at p.1 p.2 = true)
            (zip (map as_pauli la) (map as_pauli lb)))
  = length (filter (λ p, anti_commute_at p.1 p.2 = true) (zip la lb)).
Proof.
  revert lb. induction la as [|a la IH]; intros [|b lb]; try done.
  cbn [map zip zip_with]. rewrite !count_cons, anti_commute_at_as_pauli.
  f_equal. apply IH.
Qed.

Lemma trivial_string_commutes_aux (a b : string) :
  trivial_string a → len a = len b → pauli_commute a b = Ok true.
Proof.
  intros Ha Hlen. rewrite (pauli_commute_equal_length a b Hlen).
  by rewrite count_trivial_l.
Qed.

End CommutationAlgebra.

(** A string without X, Y or Z (the identity string in particular) commutes
    with every string of its length, on either side, whatever characters
    the other string holds. *)
Theorem trivial_string_commutes (a b : string) :
  trivial_string a → len a = len b →
  pauli_commute a b = Ok true ∧ pauli_commute b a = Ok true.
Proof.
  intros Ha Hlen.
  rewrite (pauli_commute_equal_length b a (eq_sym Hlen)), count_positions_sym.
  rewrite <- (pauli_commute_equal_length a b Hlen).
  split; by apply trivial_string_commutes_aux.
Qed.

Lemma trivial_string_commutes_witness :
  pauli_commute "IIIIIII" "XyZ?IIY" = Ok true
  ∧ pauli_commute "XyZ?IIY" "IIIIIII" = Ok true.
Proof.
  apply trivial_string_commutes; [|reflexivity].
  unfold trivial_string. cbv [chars String.list_ascii_of_string].
  repeat (apply List.Forall_cons; [reflexivity|]). apply List.Forall_nil.
Defined.

(** Every string commutes with itself, whatever its characters. *)
Theorem pauli_commute_self (p : string) : pauli_commute p p = Ok true.
Proof.
  rewrite (pauli_commute_equal_length p p eq_refl). by rewrite count_same.
Qed.

(** The test performs no validation of the alphabet: a character other than
    X, Y and Z is read as the identity, so replacing every such character
    by I in both strings leaves the outcome (result or exception)
    unchanged. *)
Theorem pauli_commute_as_pauli (a b : string) :
  pauli_commute (map_chars as_pauli a) (map_chars as_pauli b)
  = pauli_commute a b.
Proof.
  unfold pauli_commute.
  rewrite !len_chars, !chars_map_chars, !length_map, !count_loop_filter.
  by rewrite count_as_pauli.
Qed.

(** The test composes over concatenation: two strings built from
    equal-length halves commute exactly when the two pairs of halves agree
    on commuting. *)
Theorem pauli_commute_app (a1 a2 b1 b2 : string) (r1 r2 : bool) :
  pauli_commute a1 b1 = Ok r1 →
  pauli_commute a2 b2 = Ok r2 →
  pauli_commute (a1 +:+ a2) (b1 +:+ b2) = Ok (Bool.eqb r1 r2).
Proof.
  intros H1 H2.
  assert (len a1 = len b1) as Hlen1.
  { destruct (decide (len a1 = len b1)) as [|Hne]; [done|].
    by rewrite (pauli_commute_unequal_length _ _ Hne) in H1. }
  assert (len a2 = len b2) as Hlen2.
  { destruct (decide (len a2 = len b2)) as [|Hne]; [done|].
    by rewrite (pauli_commute_unequal_length _ _ Hne) in H2. }
  rewrite (pauli_commute_equal_length _ _ Hlen1), parity_even in H1.
  rewrite (pauli_commute_equal_length _ _ Hlen2), parity_even in H2.
  injection H1 as <-. injection H2 as <-.
  rewrite pauli_commute_equal_length by (rewrite !len_app; lia).
  rewrite !chars_app, zip_with_app by (by rewrite <- !len_chars).
  rewrite filter_app, length_app, parity_even, Nat.even_add.
  reflexivity.
Qed.

Lemma pauli_commute_app_witness :
  pauli_commute ("XI" +:+ "IZZ") ("ZI" +:+ "XXX") = Ok (Bool.eqb false true).
Proof.
  apply pauli_commute_app; reflexivity.
Defined.

(** * Weight-1 errors against one generator *)

Section WeightOne.

(** A string of seven characters, spelled out. *)
Lemma seven_chars (g : string) :
  len g = 7 →
  ∃ c0 c1 c2 c3 c4 c5 c6 : ascii,
    g = String c0 (String c1 (String c2 (String c3 (String c4 (String c5
          (String c6 EmptyString)))))).
Proof.
  unfold len. intros Hlen.
  do 7 (destruct g as [|? g]; [done|]).
  destruct g; [|done]. by eexists _, _, _, _, _, _, _.
Qed.

Lemma weight_one_commute (σ c0 c1 c2 c3 c4 c5 c6 : ascii) (i : nat) :
  (i ≤ 6)%nat →
  pauli_commute (single_qubit_error (String σ EmptyString) i).2
    (String c0 (String c1 (String c2 (String c3 (String c4 (String c5
       (String c6 EmptyString)))))))
  = Ok (negb (anti_commute_at σ
                (nth (6 - i) [c0; c1; c2; c3; c4; c5; c6] "I"%char))).
Proof.
  intros Hi.
  do 7 (destruct i as [|i];
    [cbv -[anti_commute_at Nat.modulo Nat.eqb negb];
     rewrite !(anti_commute_at_trivial_l "I") by reflexivity;
     by destruct (anti_commute_at σ _)|]).
  lia.
Qed.

End WeightOne.

(** A weight-1 error looks at one character of the generator only: the
    error with symbol [σ] on qubit [i] commutes with a 7-character string
    exactly when [σ] does not locally anti-commute with the character at
    position [6 - i] (qubit 0 is the rightmost position). *)
Theorem single_qubit_error_commute (σ c : ascii) (i : nat) (g : string) :
  (i ≤ 6)%nat → len g = 7 → chars g !! (6 - i)%nat = Some c →
  pauli_commute (single_qubit_error (String σ EmptyString) i).2 g
  = Ok (negb (anti_commute_at σ c)).
Proof.
  intros Hi Hlen Hc.
  destruct (seven_chars g Hlen) as (c0 & c1 & c2 & c3 & c4 & c5 & c6 & ->).
  rewrite weight_one_commute by done. do 3 f_equal.
  cbv [chars String.list_ascii_of_string] in Hc.
  do 7 (destruct i as [|i]; [cbn in *; congruence|]). lia.
Qed.

Lemma single_qubit_error_commute_witness :
  pauli_commute (single_qubit_error "Y" 2).2 "XIXIXIX"
  = Ok (negb (anti_commute_at "Y" "X")).
Proof.
  apply (single_qubit_error_commute "Y" "X" 2 "XIXIXIX"); [lia | done | done].
Defined.

(** Against a generator over the alphabet I, X, Y, Z, the Y error on a qubit
    commutes exactly when the X error and the Z error on that qubit agree:
    its syndrome bit is the exclusive or of theirs. *)
Theorem y_error_bit_is_xor (i : nat) (g : string) :
  (i ≤ 6)%nat → len g = 7 → pauli_string g →
  ∃ bx bz : bool,
    pauli_commute (single_qubit_error "X" i).2 g = Ok bx
    ∧ pauli_commute (single_qubit_error "Z" i).2 g = Ok bz
    ∧ pauli_commute (single_qubit_error "Y" i).2 g = Ok (Bool.eqb bx bz).
Proof.
  intros Hi Hlen Hg.
  destruct (seven_chars g Hlen) as (c0 & c1 & c2 & c3 & c4 & c5 & c6 & ->).
  eexists _, _.
  rewrite (weight_one_commute "X"), (weight_one_commute "Y"),
    (weight_one_commute "Z") by done.
  split; [done|]. split; [done|]. f_equal.
  assert (pauli_symbol (nth (6 - i) [c0; c1; c2; c3; c4; c5; c6] "I"%char))
    as Hsym.
  { unfold pauli_string in Hg. cbv [chars String.list_ascii_of_string] in Hg.
    rewrite Forall_forall in Hg. apply Hg, list_elem_of_In, nth_In.
    simpl. lia. }
  by destruct Hsym as [->|[->|[->| ->]]].
Qed.

Lemma y_error_bit_is_xor_witness :
  ∃ bx bz : bool,
    pauli_commute (single_qubit_error "X" 4).2 "IXZIYXZ" = Ok bx
    ∧ pauli_commute (single_qubit_error "Z" 4).2 "IXZIYXZ" = Ok bz
    ∧ pauli_commute (single_qubit_error "Y" 4).2 "IXZIYXZ"
      = Ok (Bool.eqb bx bz).
Proof.
  apply y_error_bit_is_xor; [lia | done | pauli_string_literal].
Defined.

(** * Further properties of [get_syndrome] *)

Section SyndromeFacts.

Variable stabilizers : gmap string string.
Variable error_string : string.

(** What the loop over the generator names does to its accumulator: on
    success one bit per name is appended, on failure the exception tells
    which lookup or comparison failed. *)
Lemma syndrome_loop (names : list string) (acc : list string) :
  match
    for_each
      (λ stab_name (syndrome : list string),
         stab_string ← dict_get stabilizers stab_name;
         commutes ← pauli_commute error_string stab_string;
         Ok (syndrome ++ [if commutes : bool then "0" else "1"])%list)
      names acc
  with
  | Ok acc' =>
      ∃ bs : list bool,
        acc' = (acc ++ map (λ b : bool, if b then "0" else "1") bs)%list
        ∧ Forall2
            (λ name b, ∃ g, stabilizers !! name = Some g
                            ∧ pauli_commute error_string g = Ok b)
            names bs
  | Raise x =>
      (∃ name, name ∈ names ∧ stabilizers !! name = None ∧ x = KeyError name)
      ∨ (x = ValueError length_message
         ∧ ∃ name g, name ∈ names ∧ stabilizers !! name = Some g
                     ∧ len g ≠ len error_string)
  end.
Proof.
  revert acc. induction names as [|name names IH]; intros acc.
  - simpl. exists []. by rewrite app_nil_r.
  - rewrite for_each_cons. unfold dict_get.
    destruct (stabilizers !! name) as [g|] eqn:Hg; simpl.
    + destruct (decide (len error_string = len g)) as [Hlen|Hlen].
      * rewrite (pauli_commute_equal_length _ _ Hlen). simpl.
        match goal with |- context [for_each _ names ?a] =>
          specialize (IH a); destruct (for_each _ names a) as [acc'|x] end.
        -- destruct IH as (bs & -> & Hbs).
           eexists (_ :: bs). rewrite <- app_assoc. split; [done|].
           constructor; [|done]. exists g. split; [done|].
           by apply pauli_commute_equal_length.
        -- destruct IH as [(n & Hn & Hnone & ->)|(-> & n & g' & Hn & Hg' & Hne)].
           ++ left. exists n. split; [by right | done].
           ++ right. split; [done|]. exists n, g'. split; [by right | done].
      * rewrite (pauli_commute_unequal_length _ _ Hlen). simpl.
        right. split; [done|]. exists name, g.
        split; [by left|]. split; [done | congruence].
    + left. exists name. split; [by left | done].
Qed.

Lemma chars_join_bits (bs : list bool) :
  chars (join EmptyString (map (λ b : bool, if b then "0" else "1") bs))
  = map (λ b : bool, if b then "0" else "1")%char bs.
Proof.
  induction bs as [|b bs IH]; [done|].
  destruct bs as [|b' bs]; [by destruct b|].
  change (join EmptyString (map _ (b :: b' :: bs)))
    with ((if b then "0" else "1") +:+ EmptyString
          +:+ join EmptyString (map (λ b : bool, if b then "0" else "1")
                                  (b' :: bs))).
  rewrite !chars_app, IH. by destruct b.
Qed.

(** A returned syndrome is the string of the bits of the six comparisons. *)
Lemma get_syndrome_bits (s : string) :
  get_syndrome stabilizers error_string = Ok s →
  ∃ bs : list bool,
    s = join EmptyString (map (λ b : bool, if b then "0" else "1") bs)
    ∧ Forall2
        (λ name b, ∃ g, stabilizers !! name = Some g
                        ∧ pauli_commute error_string g = Ok b)
        stab_names bs.
Proof.
  unfold get_syndrome. pose proof (syndrome_loop stab_names []) as Hloop.
  destruct (for_each _ stab_names []) as [acc|x]; [|done].
  destruct Hloop as (bs & -> & Hbs). intros [= <-]. by exists bs.
Qed.

Lemma get_syndrome_raise (x : exn) :
  get_syndrome stabilizers error_string = Raise x →
  (∃ name, name ∈ stab_names ∧ stabilizers !! name = None
           ∧ x = KeyError name)
  ∨ (x = ValueError length_message
     ∧ ∃ name g, name ∈ stab_names ∧ stabilizers !! name = Some g
                 ∧ len g ≠ len error_string).
Proof.
  unfold get_syndrome. pose proof (syndrome_loop stab_names []) as Hloop.
  destruct (for_each _ stab_names []) as [acc|y]; [done|].
  by intros [= <-].
Qed.

Lemma get_syndrome_ok :
  (∀ name, name ∈ stab_names →
     ∃ g, stabilizers !! name = Some g ∧ len g = len error_string) →
  ∃ s, get_syndrome stabilizers error_string = Ok s.
Proof.
  intros Hall.
  destruct (get_syndrome stabilizers error_string) as [s|x] eqn:Hrun;
    [by exists s|].
  apply get_syndrome_raise in Hrun
    as [(n & Hn & Hnone & _)|(_ & n & g & Hn & Hg & Hne)];
    destruct (Hall n Hn) as (g' & Hg' & Hlen); congruence.
Qed.

Lemma get_syndrome_ok_inv (s name : string) :
  get_syndrome stabilizers error_string = Ok s →
  name ∈ stab_names →
  ∃ g, stabilizers !! name = Some g ∧ len g = len error_string.
Proof.
  intros Hs Hname.
  apply get_syndrome_bits in Hs as (bs & _ & Hbs).
  apply list_elem_of_lookup in Hname as [k Hk].
  destruct (Forall2_lookup_l _ _ _ _ _ Hbs Hk) as (b & _ & g & Hg & Hb).
  exists g. split; [done|].
  destruct (decide (len error_string = len g)) as [|Hne]; [done|].
  by rewrite (pauli_commute_unequal_length _ _ Hne) in Hb.
Qed.

Lemma get_syndrome_bit_string (s : string) :
  get_syndrome stabilizers error_string = Ok s →
  len s = 6 ∧ Forall (λ c, c = "0" ∨ c = "1")%char (chars s).
Proof.
  intros Hs. apply get_syndrome_bits in Hs as (bs & -> & Hbs).
  rewrite len_chars, chars_join_bits, length_map. split.
  - by rewrite <- (Forall2_length _ _ _ Hbs).
  - apply Forall_fmap, Forall_forall. intros [] _; simpl; auto.
Qed.

Lemma trivial_syndrome_zero (s : string) :
  trivial_string error_string →
  get_syndrome stabilizers error_string = Ok s →
  s = "000000".
Proof.
  intros Htriv Hs. apply get_syndrome_bits in Hs as (bs & -> & Hbs).
  assert (bs = replicate (length stab_names) true) as ->; [|done].
  revert Hbs. generalize stab_names.
  induction bs as [|b bs IH]; intros names Hbs.
  - by apply Forall2_nil_inv_r in Hbs as ->.
  - apply Forall2_cons_inv_r in Hbs
      as (name & names' & (g & Hg & Hb) & Hbs & ->).
    simpl. f_equal; [|by apply IH].
    destruct (decide (len error_string = len g)) as [Hlen|Hne].
    + rewrite (trivial_string_commutes_aux error_string g Htriv Hlen) in Hb.
      by injection Hb.
    + by rewrite (pauli_commute_unequal_length _ _ Hne) in Hb.
Qed.

End SyndromeFacts.

(** [get_syndrome] returns exactly when each of the six names S5 .. S0 is a
    key of the stabilizer dictionary and is bound to a string as long as the
    error string. *)
Theorem get_syndrome_returns_iff (stabilizers : gmap string string)
    (error_string : string) :
  (∃ s, get_syndrome stabilizers error_string = Ok s)
  ↔ ∀ name, name ∈ stab_names →
      ∃ g, stabilizers !! name = Some g ∧ len g = len error_string.
Proof.
  split; [|apply get_syndrome_ok].
  intros [s Hs] name Hname. by eapply get_syndrome_ok_inv.
Qed.

(** When [get_syndrome] raises, it is a [KeyError] naming a generator that
    the dictionary lacks, or the [ValueError] of [pauli_commute] for a
    generator whose length differs from the error string's; nothing else is
    raised. *)
Theorem get_syndrome_raises_only (stabilizers : gmap string string)
    (error_string : string) (x : exn) :
  get_syndrome stabilizers error_string = Raise x →
  (∃ name, name ∈ stab_names ∧ stabilizers !! name = None
           ∧ x = KeyError name)
  ∨ (x = ValueError length_message
     ∧ ∃ name g, name ∈ stab_names ∧ stabilizers !! name = Some g
                 ∧ len g ≠ len error_string).
Proof. apply get_syndrome_raise. Qed.

Lemma get_syndrome_raises_only_witness :
  (∃ name, name ∈ stab_names
           ∧ delete "S3" reference_stabilizers !! name = None
           ∧ KeyError "S3" = KeyError name)
  ∨ (KeyError "S3" = ValueError length_message
     ∧ ∃ name g, name ∈ stab_names
                 ∧ delete "S3" reference_stabilizers !! name = Some g
                 ∧ len g ≠ len "IIIIIIX").
Proof.
  apply (get_syndrome_raises_only (delete "S3" reference_stabilizers)
           "IIIIIIX" (KeyError "S3")).
  compute_done.
Defined.

(** A returned syndrome has one character per generator, six in all; the
    character at position [k] is 0 when the error string commutes with the
    generator bound to the [k]-th name of S5 .. S0, and 1 when it
    anti-commutes. *)
Theorem get_syndrome_shape (stabilizers : gmap string string)
    (error_string s : string) :
  get_syndrome stabilizers error_string = Ok s →
  len s = 6
  ∧ ∀ (k : nat) (name : string),
      stab_names !! k = Some name →
      ∃ (g : string) (b : bool),
        stabilizers !! name = Some g
        ∧ pauli_commute error_string g = Ok b
        ∧ chars s !! k = Some (if b then "0" else "1")%char.
Proof.
  intros Hs. apply get_syndrome_bits in Hs as (bs & -> & Hbs).
  rewrite len_chars, chars_join_bits, length_map. split.
  - by rewrite <- (Forall2_length _ _ _ Hbs).
  - intros k name Hk.
    destruct (Forall2_lookup_l _ _ _ _ _ Hbs Hk) as (b & Hb & g & Hg & Hc).
    exists g, b. split; [done|]. split; [done|].
    by rewrite list_lookup_fmap, Hb.
Qed.

Lemma get_syndrome_shape_witness :
  len "011011" = 6
  ∧ ∀ (k : nat) (name : string),
      stab_names !! k = Some name →
      ∃ (g : string) (b : bool),
        reference_stabilizers !! name = Some g
        ∧ pauli_commute "IIIIIYI" g = Ok b
        ∧ chars "011011" !! k = Some (if b then "0" else "1")%char.
Proof.
  apply (get_syndrome_shape reference_stabilizers "IIIIIYI" "011011").
  compute_done.
Defined.

(** An error string without X, Y or Z, the identity in particular, has the
    all-zero syndrome under every stabilizer dictionary for which the
    syndrome can be computed. *)
Theorem trivial_string_syndrome (stabilizers : gmap string string)
    (error_string s : string) :
  trivial_string error_string →
  get_syndrome stabilizers error_string = Ok s →
  s = "000000".
Proof.
  apply trivial_syndrome_zero.
Qed.

Lemma trivial_string_syndrome_witness :
  get_syndrome z_only_stabilizers "IIIIIII" = Ok "000000"
  ∧ "000000" = "000000".
Proof.
  split; [compute_done|].
  apply (trivial_string_syndrome z_only_stabilizers "IIIIIII" "000000").
  - unfold trivial_string. cbv [chars String.list_ascii_of_string].
    repeat (apply List.Forall_cons; [reflexivity|]). apply List.Forall_nil.
  - compute_done.
Defined.

(** * Further properties of the dictionary builder *)

Section BuilderFacts.

Variable stabilizers : gmap string string.

(** A run of insertions succeeds exactly when every syndrome can be
    computed; it then binds each syndrome, keeps the keys it started with,
    and stores labels of the inserted errors only. *)
Lemma for_each_insert_run (errors : list error_operator)
    (d0 : gmap string string) :
  match for_each (insert_error stabilizers) errors d0 with
  | Ok d =>
      ∃ L, syndromes_are stabilizers errors L
           ∧ (∀ s, is_Some (d !! s) ↔ is_Some (d0 !! s) ∨ s ∈ L)
           ∧ (∀ s l, d !! s = Some l →
                d0 !! s = Some l
                ∨ ∃ e, e ∈ errors ∧ e.1 = l
                       ∧ get_syndrome stabilizers e.2 = Ok s)
  | Raise x =>
      ∃ e, e ∈ errors ∧ get_syndrome stabilizers e.2 = Raise x
  end.
Proof.
  revert d0. induction errors as [|e errors IH]; intros d0.
  - simpl. exists []. split; [constructor|]. split; [|by left].
    intros s. rewrite elem_of_nil. tauto.
  - rewrite for_each_cons, insert_error_unfold.
    destruct (get_syndrome stabilizers e.2) as [s0|x] eqn:Hs0;
      [|exists e; split; [by left | done]].
    specialize (IH (<[s0 := e.1]> d0)).
    destruct (for_each _ errors _) as [d|x].
    + destruct IH as (L & HL & Hkeys & Hvals). exists (s0 :: L).
      split; [by constructor|]. split.
      * intros s. rewrite Hkeys, elem_of_cons, lookup_insert_is_Some.
        destruct (decide (s0 = s)) as [->|]; intuition congruence.
      * intros s l Hl. destruct (Hvals s l Hl) as [Hins|(e' & He' & Hrest)].
        -- apply lookup_insert_Some in Hins as [[<- <-]|[_ Hd0]].
           ++ right. exists e. split; [by left | done].
           ++ by left.
        -- right. exists e'. split; [by right | done].
    + destruct IH as (e' & He' & Hraise). exists e'. split; [by right | done].
Qed.

(** Each insertion adds at most one key, and the dictionary grows by one
    key per insertion exactly when the syndromes are new and pairwise
    distinct. *)
Lemma for_each_insert_size (errors : list error_operator) (L : list string)
    (d0 d : gmap string string) :
  for_each (insert_error stabilizers) errors d0 = Ok d →
  syndromes_are stabilizers errors L →
  (size d0 ≤ size d ≤ size d0 + length L)%nat
  ∧ (size d = size d0 + length L
     ↔ NoDup L ∧ ∀ s, s ∈ L → d0 !! s = None).
Proof.
  intros Hrun HL. revert d0 Hrun.
  induction HL as [|e s errors L Hs HL IH]; intros d0 Hrun.
  - injection Hrun as ->. simpl. split; [lia|].
    split; [intros _; split; [constructor | by intros s ?%elem_of_nil] | lia].
  - rewrite for_each_cons, insert_error_unfold, Hs in Hrun.
    destruct (IH _ Hrun) as [Hbound Hiff].
    pose proof (map_size_insert s e.1 d0) as Hsize. simpl.
    destruct (d0 !! s) as [l|] eqn:Hd0; simpl in Hsize.
    + split; [lia|]. split; [lia|].
      intros [_ Hnone]. specialize (Hnone s (list_elem_of_here _ _)).
      congruence.
    + split; [lia|]. rewrite Hsize in Hiff. split.
      * intros Heq. destruct Hiff as [Hiff _].
        destruct Hiff as [Hnodup Hnone]; [lia|]. split.
        -- constructor; [|done]. intros Hin.
           specialize (Hnone s Hin). by rewrite lookup_insert_eq in Hnone.
        -- intros s' [->|Hin]%elem_of_cons; [done|].
           specialize (Hnone s' Hin).
           apply lookup_insert_None in Hnone. tauto.
      * intros [Hnodup Hnone]. apply NoDup_cons in Hnodup as [Hnotin Hnodup].
        destruct Hiff as [_ Hiff]. rewrite Hiff; [lia|]. split; [done|].
        intros s' Hin. apply lookup_insert_None. split.
        -- apply Hnone. by right.
        -- intros ->. done.
Qed.

Lemma syndromes_of_are (errors : list error_operator) (acc L : list string) :
  for_each
    (λ e acc, s ← get_syndrome stabilizers e.2; Ok (acc ++ [s])%list)
    errors acc = Ok L
  ↔ ∃ L', L = (acc ++ L')%list ∧ syndromes_are stabilizers errors L'.
Proof.
  revert acc. induction errors as [|e errors IH]; intros acc.
  - simpl. split.
    + intros [= <-]. exists []. by rewrite app_nil_r; split; [|constructor].
    + intros (L' & -> & ->%Forall2_nil_inv_l). by rewrite app_nil_r.
  - rewrite for_each_cons. unfold mbind, result_mbind, result_bind.
    destruct (get_syndrome stabilizers e.2) as [s|x] eqn:Hs.
    + rewrite IH. split.
      * intros (L' & -> & HL'). exists (s :: L').
        rewrite <- app_assoc. split; [done | by constructor].
      * intros (L' & -> & HL').
        apply Forall2_cons_inv_l in HL' as (s' & L'' & Hs' & HL'' & ->).
        rewrite Hs in Hs'. injection Hs' as <-.
        exists L''. by rewrite <- app_assoc.
    + split; [done|]. intros (L' & _ & HL').
      apply Forall2_cons_inv_l in HL' as (s' & L'' & Hs' & _ & _).
      congruence.
Qed.

Lemma syndromes_of_iff (errors : list error_operator) (L : list string) :
  syndromes_of stabilizers errors = Ok L ↔ syndromes_are stabilizers errors L.
Proof.
  unfold syndromes_of. rewrite syndromes_of_are. simpl. split.
  - by intros (L' & -> & HL').
  - intros HL. by exists L.
Qed.

End BuilderFacts.

(** Runs a closed computation and names its value. *)
Ltac returns_intro d Hd :=
  match goal with
  | |- returns ?m _ =>
      let H := fresh in
      assert (returns m (λ _, True)) as H by compute_done;
      apply returns_elim in H as (d & Hd & _); rewrite Hd; simpl
  end.

Section BuilderTheorems.

Variable stabilizers : gmap string string.

Lemma enumerated_errors_length :
  Forall (λ e : error_operator, len e.2 = 7) enumerated_errors.
Proof. compute_done. Qed.

Lemma syndrome_dictionary_run (d : gmap string string) :
  syndrome_dictionary stabilizers = Ok d →
  ∃ L, syndromes_are stabilizers enumerated_errors L
       ∧ (∀ s, is_Some (d !! s) ↔ s ∈ L)
       ∧ (∀ s l, d !! s = Some l →
            ∃ e, e ∈ enumerated_errors ∧ e.1 = l
                 ∧ get_syndrome stabilizers e.2 = Ok s).
Proof.
  rewrite syndrome_dictionary_enumerated. intros Hrun.
  pose proof (for_each_insert_run stabilizers enumerated_errors ∅) as H.
  rewrite Hrun in H. destruct H as (L & HL & Hkeys & Hvals).
  exists L. split; [done|]. split.
  - intros s. rewrite Hkeys, lookup_empty, is_Some_alt. tauto.
  - intros s l Hl. destruct (Hvals s l Hl) as [Hempty|He]; [|done].
    by rewrite lookup_empty in Hempty.
Qed.

(** With pairwise distinct syndromes, the error at each position is the
    value stored under the syndrome at that position. *)
Lemma for_each_insert_distinct (errors : list error_operator)
    (L : list string) (d0 d : gmap string string) (k : nat)
    (e : error_operator) (s : string) :
  for_each (insert_error stabilizers) errors d0 = Ok d →
  syndromes_are stabilizers errors L → NoDup L →
  errors !! k = Some e → L !! k = Some s →
  d !! s = Some e.1.
Proof.
  intros Hrun HL Hnodup He Hs.
  rewrite <- (take_drop_middle errors k e He) in Hrun.
  apply (for_each_insert_last _ _ _ _ _ _ s Hrun).
  - by destruct (Forall2_lookup_l _ _ _ _ _ HL He) as (s' & [= ->]%(eq_trans (eq_sym Hs)) & Hs').
  - intros e' [j Hj]%list_elem_of_lookup Hs'.
    rewrite lookup_drop in Hj.
    destruct (Forall2_lookup_l _ _ _ _ _ HL Hj) as (s' & HLj & Hs'').
    rewrite Hs' in Hs''. injection Hs'' as <-.
    pose proof (NoDup_lookup _ _ _ _ Hnodup Hs HLj). lia.
Qed.

End BuilderTheorems.

(** The builder returns exactly when each of the six names S5 .. S0 is
    bound to a string of seven characters. *)
Theorem syndrome_dictionary_returns_iff (stabilizers : gmap string string) :
  (∃ d, syndrome_dictionary stabilizers = Ok d)
  ↔ ∀ name, name ∈ stab_names →
      ∃ g, stabilizers !! name = Some g ∧ len g = 7.
Proof.
  split.
  - intros [d Hd] name Hname.
    apply syndrome_dictionary_run in Hd as (L & HL & _).
    assert (enumerated_errors !! 21%nat = Some ("I", "IIIIIII")) as Hid by done.
    destruct (Forall2_lookup_l _ _ _ _ _ HL Hid) as (s & _ & Hs).
    by apply (get_syndrome_ok_inv _ _ _ name) in Hs.
  - intros Hall. rewrite syndrome_dictionary_enumerated.
    pose proof (for_each_insert_run stabilizers enumerated_errors ∅) as H.
    destruct (for_each _ enumerated_errors ∅) as [d|x]; [by exists d|].
    destruct H as (e & He & Hraise).
    destruct (get_syndrome_ok stabilizers e.2) as [s Hs]; [|congruence].
    pose proof enumerated_errors_length as Hlen.
    rewrite Forall_forall in Hlen. by rewrite (Hlen e He).
Qed.

(** Whatever the stabilizers, a dictionary that is returned binds the
    all-zero syndrome to the label I: the identity is inserted last and
    nothing overwrites it. *)
Theorem identity_entry (stabilizers d : gmap string string) :
  syndrome_dictionary stabilizers = Ok d → d !! "000000" = Some "I".
Proof.
  intros Hd. pose proof Hd as Hrun.
  apply syndrome_dictionary_run in Hd as (L & HL & _).
  assert (enumerated_errors !! 21%nat = Some ("I", "IIIIIII")) as Hid by done.
  destruct (Forall2_lookup_l _ _ _ _ _ HL Hid) as (s & _ & Hs).
  assert (s = "000000") as ->.
  { apply (trivial_syndrome_zero stabilizers "IIIIIII"); [|done].
    unfold trivial_string. cbv [chars String.list_ascii_of_string].
    repeat (apply List.Forall_cons; [reflexivity|]). apply List.Forall_nil. }
  apply (last_label_wins_aux stabilizers d (take 21 enumerated_errors) []
           ("I", "IIIIIII") "000000" Hrun); [done | done|].
  by intros e' ?%elem_of_nil.
Qed.

Lemma identity_entry_witness :
  returns (syndrome_dictionary z_only_stabilizers)
    (λ d, d !! "000000" = Some "I").
Proof.
  returns_intro d Hrun.
  by apply (identity_entry z_only_stabilizers d).
Defined.

(** Every entry of a returned dictionary pairs the syndrome of some
    enumerated error with that error's label, and the syndrome of every
    enumerated error is a key. *)
Theorem dictionary_entries (stabilizers d : gmap string string) :
  syndrome_dictionary stabilizers = Ok d →
  (∀ s l, d !! s = Some l →
     ∃ e, e ∈ enumerated_errors ∧ e.1 = l
          ∧ get_syndrome stabilizers e.2 = Ok s)
  ∧ (∀ e, e ∈ enumerated_errors →
       ∃ s, get_syndrome stabilizers e.2 = Ok s ∧ is_Some (d !! s)).
Proof.
  intros Hd. apply syndrome_dictionary_run in Hd as (L & HL & Hkeys & Hvals).
  split; [done|].
  intros e [k Hk]%list_elem_of_lookup.
  destruct (Forall2_lookup_l _ _ _ _ _ HL Hk) as (s & HLk & Hs).
  exists s. split; [done|]. apply Hkeys. by eapply list_elem_of_lookup_2.
Qed.

Lemma dictionary_entries_witness :
  returns (syndrome_dictionary z_only_stabilizers) (λ d,
    (∀ s l, d !! s = Some l →
       ∃ e, e ∈ enumerated_errors ∧ e.1 = l
            ∧ get_syndrome z_only_stabilizers e.2 = Ok s)
    ∧ (∀ e, e ∈ enumerated_errors →
         ∃ s, get_syndrome z_only_stabilizers e.2 = Ok s
              ∧ is_Some (d !! s))).
Proof.
  returns_intro d Hrun.
  by apply (dictionary_entries z_only_stabilizers d).
Defined.

(** A returned dictionary has between 1 and 22 entries, and each key is a
    string of six characters 0 or 1. *)
Theorem dictionary_keys (stabilizers d : gmap string string) :
  syndrome_dictionary stabilizers = Ok d →
  (1 ≤ size d ≤ 22)%nat
  ∧ ∀ s, is_Some (d !! s) →
      len s = 6 ∧ Forall (λ c, c = "0" ∨ c = "1")%char (chars s).
Proof.
  intros Hd. pose proof Hd as Hrun.
  apply syndrome_dictionary_run in Hd as (L & HL & Hkeys & Hvals).
  rewrite syndrome_dictionary_enumerated in Hrun.
  destruct (for_each_insert_size _ _ _ _ _ Hrun HL) as [[_ Hupper] _].
  rewrite map_size_empty, <- (Forall2_length _ _ _ HL) in Hupper.
  split; [split; [|done]|].
  - assert (is_Some (d !! "000000")) as Hzero.
    { apply Hkeys. assert (enumerated_errors !! 21%nat = Some ("I", "IIIIIII"))
        as Hid by done.
      destruct (Forall2_lookup_l _ _ _ _ _ HL Hid) as (s & HLs & Hs).
      assert (s = "000000") as ->; [|by eapply list_elem_of_lookup_2].
      apply (trivial_syndrome_zero stabilizers "IIIIIII"); [|done].
      unfold trivial_string. cbv [chars String.list_ascii_of_string].
      repeat (apply List.Forall_cons; [reflexivity|]). apply List.Forall_nil. }
    destruct (decide (size d = 0)) as [Hzero_size|]; [|lia].
    apply map_size_empty_iff in Hzero_size. subst d.
    rewrite lookup_empty in Hzero. by destruct Hzero.
  - intros s [l Hl]. destruct (Hvals s l Hl) as (e & _ & _ & Hs).
    by eapply get_syndrome_bit_string.
Qed.

Lemma dictionary_keys_witness :
  returns (syndrome_dictionary z_only_stabilizers) (λ d,
    (1 ≤ size d ≤ 22)%nat
    ∧ ∀ s, is_Some (d !! s) →
        len s = 6 ∧ Forall (λ c, c = "0" ∨ c = "1")%char (chars s)).
Proof.
  returns_intro d Hrun.
  by apply (dictionary_keys z_only_stabilizers d).
Defined.

(** The dictionary has 22 entries exactly when the 22 enumerated errors have
    pairwise distinct syndromes: a smaller dictionary means that some errors
    share a syndrome and overwrote one another. *)
Theorem full_table_iff_distinct (stabilizers d : gmap string string)
    (L : list string) :
  syndrome_dictionary stabilizers = Ok d →
  syndromes_of stabilizers enumerated_errors = Ok L →
  size d = 22 ↔ NoDup L.
Proof.
  intros Hd HL. rewrite syndrome_dictionary_enumerated in Hd.
  rewrite syndromes_of_iff in HL.
  destruct (for_each_insert_size _ _ _ _ _ Hd HL) as [_ Hiff].
  rewrite map_size_empty, <- (Forall2_length _ _ _ HL) in Hiff.
  change (length enumerated_errors) with 22 in Hiff. simpl in Hiff.
  rewrite Hiff. split; [tauto|]. intros Hnodup. split; [done|].
  intros s _. apply lookup_empty.
Qed.

Lemma full_table_iff_distinct_witness :
  returns (syndrome_dictionary z_only_stabilizers) (λ d,
    returns (syndromes_of z_only_stabilizers enumerated_errors) (λ L,
      size d = 22 ↔ NoDup L)).
Proof.
  returns_intro d Hd. returns_intro L HL.
  by apply (full_table_iff_distinct z_only_stabilizers d L).
Defined.

(** When the enumerated errors have pairwise distinct syndromes, looking up
    the syndrome of any of them returns its own label, for every stabilizer
    dictionary and not only the reference one. *)
Theorem distinct_syndromes_round_trip (stabilizers d : gmap string string)
    (L : list string) (e : error_operator) :
  syndrome_dictionary stabilizers = Ok d →
  syndromes_of stabilizers enumerated_errors = Ok L →
  NoDup L →
  e ∈ enumerated_errors →
  ∃ s, get_syndrome stabilizers e.2 = Ok s ∧ d !! s = Some e.1.
Proof.
  intros Hd HL Hnodup [k Hk]%list_elem_of_lookup.
  rewrite syndrome_dictionary_enumerated in Hd.
  rewrite syndromes_of_iff in HL.
  destruct (Forall2_lookup_l _ _ _ _ _ HL Hk) as (s & HLk & Hs).
  exists s. split; [done|].
  by eapply for_each_insert_distinct.
Qed.

Lemma distinct_syndromes_round_trip_witness :
  returns (syndrome_dictionary reference_stabilizers) (λ d,
    ∃ s, get_syndrome reference_stabilizers "IIZIIII" = Ok s
         ∧ d !! s = Some "Z4").
Proof.
  returns_intro d Hd.
  assert (returns (syndromes_of reference_stabilizers enumerated_errors)
            NoDup) as HL by compute_done.
  apply returns_elim in HL as (L & HL & Hnodup).
  apply (distinct_syndromes_round_trip reference_stabilizers d L
           ("Z4", "IIZIIII") Hd HL Hnodup).
  vm_compute. repeat constructor.
Defined.


(** * Further properties of the printed output *)

Section RowFacts.

Variable stabilizers : gmap string string.
Variable error_string : string.

(** The loop that fills a row runs in step with the loop of
    [get_syndrome]: it fails on the same exception, and otherwise appends
    one cell per syndrome bit. *)
Lemma row_loop (names : list string) (pre acc : list string) :
  for_each
    (λ stab_name (row_parts : list string),
       stab_string ← dict_get stabilizers stab_name;
       commutes ← pauli_commute error_string stab_string;
       if commutes : bool then Ok (row_parts ++ ["0 (commute)"])%list
       else Ok (row_parts ++ ["1 (anti-commute)"])%list)
    names
    (pre ++ map (λ bit, if String.eqb bit "0" then "0 (commute)"
                        else "1 (anti-commute)") acc)%list
  = match
      for_each
        (λ stab_name (syndrome : list string),
           stab_string ← dict_get stabilizers stab_name;
           commutes ← pauli_commute error_string stab_string;
           Ok (syndrome ++ [if commutes : bool then "0" else "1"])%list)
        names acc
    with
    | Ok acc' =>
        Ok (pre ++ map (λ bit, if String.eqb bit "0" then "0 (commute)"
                               else "1 (anti-commute)") acc')%list
    | Raise x => Raise x
    end.
Proof.
  revert acc. induction names as [|name names IH]; intros acc; [done|].
  rewrite !for_each_cons.
  destruct (dict_get stabilizers name) as [g|x]; simpl; [|done].
  destruct (pauli_commute error_string g) as [[]|x]; simpl; [| |done].
  - rewrite <- IH, map_app, app_assoc. done.
  - rewrite <- IH, map_app, app_assoc. done.
Qed.

Lemma cells_of_bits (bs : list bool) :
  map cell (map (λ b : bool, if b then "0" else "1")%char bs)
  = map (λ bit, if String.eqb bit "0" then "0 (commute)"
                else "1 (anti-commute)")
      (map (λ b : bool, if b then "0" else "1") bs).
Proof. induction bs as [|[] bs IH]; simpl; by f_equal. Qed.

End RowFacts.

(** A table row spells out the syndrome of its error: the row printed for
    an error string is its label between dollar signs, the string, and the
    cell of each bit of [get_syndrome]; when the syndrome cannot be computed
    the same exception is raised and nothing is printed. *)
Theorem print_row_syndrome (stabilizers : gmap string string)
    (error_name error_string : string) (out : list string) :
  print_row stabilizers (error_name, error_string) out
  = match get_syndrome stabilizers error_string with
    | Ok s =>
        (Ok tt,
         (out ++ [table_row ("$" +:+ error_name +:+ "$") error_string s])%list)
    | Raise x => (Raise x, out)
    end.
Proof.
  unfold print_row, io_bind, lift, get_syndrome.
  pose proof (row_loop stabilizers error_string stab_names
                ["$" +:+ error_name +:+ "$"; error_string] []) as Hrow.
  simpl app in Hrow. rewrite Hrow. clear Hrow.
  pose proof (syndrome_loop stabilizers error_string stab_names []) as Hloop.
  destruct (for_each _ stab_names []) as [acc|x]; simpl; [|done].
  destruct Hloop as (bs & -> & _). simpl app.
  unfold print, table_row. by rewrite chars_join_bits, cells_of_bits.
Qed.

Section DictionaryOutput.

Lemma enumerate_lookup {A} (l : list A) (i : nat) (x : A) :
  l !! i = Some x → enumerate l !! i = Some (i, x).
Proof.
  intros Hi. unfold enumerate. by rewrite list_lookup_imap, Hi.
Qed.

Lemma length_enumerate {A} (l : list A) : length (enumerate l) = length l.
Proof. unfold enumerate. apply length_imap. Qed.

Lemma sorted_length (d : gmap string string) :
  length (sorted (map_to_list d)) = size d.
Proof.
  unfold sorted. by rewrite merge_sort_Permutation, length_map_to_list.
Qed.

End DictionaryOutput.

(** Printing a dictionary never raises and keeps what was printed before;
    it adds an opening brace, one line per entry and a closing brace.  Each
    entry of the dictionary is on one of these lines, quoted as
    ['key': 'value'] after four spaces, followed by a comma unless it is the
    last line. *)
Theorem print_dictionary_entries (d : gmap string string)
    (out : list string) :
  ∃ body : list string,
    print_dictionary d out = (Ok tt, (out ++ ["{"] ++ body ++ ["}"])%list)
    ∧ length body = size d
    ∧ ∀ k v, d !! k = Some v →
        ∃ i, (i < size d)%nat
             ∧ body !! i
               = Some ("    '" +:+ k +:+ "': '" +:+ v +:+ "'"
                       +:+ (if decide (i = size d - 1)%nat then EmptyString
                            else ",")).
Proof.
  eexists. split; [apply print_dictionary_lines|].
  rewrite length_map, length_enumerate, sorted_length. split; [done|].
  intros k v Hkv.
  apply elem_of_map_to_list in Hkv.
  assert ((k, v) ∈ sorted (map_to_list d)) as Hin.
  { unfold sorted. by rewrite merge_sort_Permutation. }
  apply list_elem_of_lookup in Hin as [i Hi].
  assert (i < size d)%nat as Hlt.
  { rewrite <- sorted_length. by eapply lookup_lt_Some. }
  exists i. split; [done|].
  rewrite list_lookup_fmap, (enumerate_lookup _ _ _ Hi). simpl.
  do 6 f_equal.
  destruct (Z.ltb_spec (Z.of_nat i) (Z.of_nat (size d) - 1));
    case_decide; try done; lia.
Qed.

(** * Further properties of [accumulated_errors] *)

Section NoiseFacts.

Context {float Qubit : Type}.
Variable float_add : float → float → float.
Variable float_of_int : Z → float.

#[local] Arguments readout_error {float} _ _.
#[local] Arguments gate_error {float} _ _ _.
#[local] Arguments gates {float} _.
#[local] Arguments gate {float} _.
#[local] Arguments gate_qubits {float} _.
#[local] Arguments parameters {float} _.
#[local] Arguments first_gate_error {float} _.
#[local] Arguments num_qubits {Qubit} _.
#[local] Arguments data {Qubit} _.
#[local] Arguments find_bit {Qubit} _ _.
#[local] Arguments operation_name {Qubit} _.
#[local] Arguments qubits {Qubit} _.
#[local] Arguments acc_single_qubit_error {float} _.
#[local] Arguments acc_two_qubit_error {float} _.
#[local] Arguments single_qubit_gate_count {float} _.
#[local] Arguments two_qubit_gate_count {float} _.

Let step := @instruction_step float float_add float_of_int Qubit.
Let plus := add float float_add float_of_int.

Section InstructionLoop.

Variable props : Properties float.
Variable circuit : Circuit Qubit.
Variable qubit_layout : list nat.

Lemma comprehension_loop {A B} (f : A → result B) (l : list A)
    (acc : list B) :
  match for_each (λ x acc, y ← f x; Ok (acc ++ [y]))%list l acc with
  | Ok ys => ∃ ys', ys = (acc ++ ys')%list ∧ Forall2 (λ x y, f x = Ok y) l ys'
  | Raise e => ∃ x, x ∈ l ∧ f x = Raise e
  end.
Proof.
  revert acc. induction l as [|x l IH]; intros acc.
  - simpl. exists []. by rewrite app_nil_r.
  - rewrite for_each_cons. unfold mbind, result_mbind, result_bind.
    destruct (f x) as [y|e] eqn:Hx; [|exists x; split; [by left | done]].
    specialize (IH (acc ++ [y])%list).
    destruct (for_each _ l _) as [ys|e].
    + destruct IH as (ys' & -> & Hys'). exists (y :: ys').
      rewrite <- app_assoc. split; [done | by constructor].
    + destruct IH as (x' & Hx' & He). exists x'. split; [by right | done].
Qed.

Lemma comprehension_ok {A B} (f : A → result B) (l : list A) :
  (∀ x, x ∈ l → ∃ y, f x = Ok y) →
  ∃ ys, comprehension f l = Ok ys ∧ Forall2 (λ x y, f x = Ok y) l ys.
Proof.
  intros Hall. unfold comprehension.
  pose proof (comprehension_loop f l []) as Hloop.
  destruct (for_each _ l []) as [ys|e].
  - destruct Hloop as (ys' & -> & Hys'). by exists ys'.
  - destruct Hloop as (x & Hx & He). destruct (Hall x Hx). congruence.
Qed.

(** A measurement leaves the accumulators alone. *)
Lemma step_measure (ins : Instruction Qubit) (c : counters float) :
  operation_name ins = "measure" →
  step props circuit qubit_layout ins c = Ok c.
Proof.
  intros Hname. unfold step, instruction_step. by rewrite decide_True.
Qed.

(** What one instruction does to the two counters. *)
Lemma step_counts (ins : Instruction Qubit) (c c' : counters float) :
  step props circuit qubit_layout ins c = Ok c' →
  single_qubit_gate_count c'
  = (single_qubit_gate_count c + gates_on 1 [ins])%Z
  ∧ two_qubit_gate_count c' = (two_qubit_gate_count c + gates_on 2 [ins])%Z.
Proof.
  unfold step, instruction_step, gates_on, mbind, result_mbind, result_bind.
  rewrite !filter_cons, !filter_nil.
  intros Hstep. repeat case_decide; repeat case_match; simplify_eq/=;
    try (split; lia); try tauto; try lia;
    exfalso;
    match goal with
    | H : ¬ (_ ∧ _) |- _ => apply H; split; [done | simpl; lia]
    end.
Qed.

Lemma loop_counts (instructions : list (Instruction Qubit))
    (c c' : counters float) :
  for_each (step props circuit qubit_layout) instructions c = Ok c' →
  single_qubit_gate_count c'
  = (single_qubit_gate_count c + gates_on 1 instructions)%Z
  ∧ two_qubit_gate_count c'
    = (two_qubit_gate_count c + gates_on 2 instructions)%Z.
Proof.
  revert c. induction instructions as [|ins instructions IH]; intros c.
  - intros [= <-]. unfold gates_on. simpl. lia.
  - rewrite for_each_cons.
    destruct (step props circuit qubit_layout ins c) as [c1|] eqn:Hstep;
      [|done].
    intros Hrun. destruct (IH _ Hrun) as [H1 H2].
    destruct (step_counts _ _ _ Hstep) as [H3 H4].
    unfold gates_on in *. rewrite !filter_cons in *.
    rewrite !filter_nil in H3, H4.
    repeat case_decide; simpl in *; lia.
Qed.

(** With a [gate_error] that always raises, no instruction changes the
    accumulated single-qubit error. *)
Lemma step_gate_error_raises (ins : Instruction Qubit)
    (c c' : counters float) :
  (∀ name q, ∃ x, gate_error props name q = Raise x) →
  step props circuit qubit_layout ins c = Ok c' →
  acc_single_qubit_error c' = acc_single_qubit_error c.
Proof.
  intros Hraise.
  unfold step, instruction_step, mbind, result_mbind, result_bind.
  intros Hstep. repeat case_decide; repeat case_match; simplify_eq/=;
    try done.
  match goal with
  | H : gate_error props ?n ?q = Ok _ |- _ =>
      destruct (Hraise n q); congruence
  end.
Qed.

Lemma loop_gate_error_raises (instructions : list (Instruction Qubit))
    (c c' : counters float) :
  (∀ name q, ∃ x, gate_error props name q = Raise x) →
  for_each (step props circuit qubit_layout) instructions c = Ok c' →
  acc_single_qubit_error c' = acc_single_qubit_error c.
Proof.
  intros Hraise. revert c.
  induction instructions as [|ins instructions IH]; intros c.
  - by intros [= <-].
  - rewrite for_each_cons.
    destruct (step props circuit qubit_layout ins c) as [c1|] eqn:Hstep;
      [|done].
    intros Hrun. rewrite (IH _ Hrun).
    by apply (step_gate_error_raises ins).
Qed.

(** An instruction all of whose qubits [find_bit] knows is processed
    without an exception, whatever [gate_error] does. *)
Lemma step_ok (ins : Instruction Qubit) (c : counters float) :
  (∀ q x, gate_error props (operation_name ins) q = Raise x →
     is_exception x = true) →
  (operation_name ins ≠ "measure" →
   ∀ q, q ∈ qubits ins → ∃ i, find_bit circuit q = Ok i) →
  ∃ c', step props circuit qubit_layout ins c = Ok c'.
Proof.
  intros Hexc Hbits. unfold step, instruction_step.
  case_decide as Hname; [by eexists|]. specialize (Hbits Hname).
  case_decide as Hone.
  - destruct (qubits ins) as [|q qs] eqn:Hqs; [done|].
    destruct (Hbits q) as [i Hi]; [by left|].
    rewrite Hi. simpl. case_decide as Hlt; [|by eexists].
    unfold layout_get.
    destruct (lookup_lt_is_Some_2 qubit_layout i Hlt) as [p ->]. simpl.
    destruct (gate_error props _ p) as [v|x] eqn:Hgate; [by eexists|].
    rewrite (Hexc _ _ Hgate). by eexists.
  - case_decide; [|by eexists].
    destruct (comprehension_ok (find_bit circuit) (qubits ins) Hbits)
      as (idxs & -> & _). simpl.
    destruct (forallb _ idxs) eqn:Hall; [|by eexists].
    rewrite forallb_forall in Hall.
    destruct (comprehension_ok (layout_get qubit_layout) idxs)
      as (ps & -> & _); [|by eexists].
    intros idx Hidx%list_elem_of_In. apply Hall, Nat.ltb_lt in Hidx.
    unfold layout_get.
    destruct (lookup_lt_is_Some_2 qubit_layout idx Hidx) as [p ->].
    by eexists.
Qed.

Lemma loop_ok (instructions : list (Instruction Qubit)) (c : counters float) :
  (∀ ins q x, ins ∈ instructions →
     gate_error props (operation_name ins) q = Raise x →
     is_exception x = true) →
  (∀ ins q, ins ∈ instructions → operation_name ins ≠ "measure" →
     q ∈ qubits ins → ∃ i, find_bit circuit q = Ok i) →
  ∃ c', for_each (step props circuit qubit_layout) instructions c = Ok c'.
Proof.
  revert c. induction instructions as [|ins instructions IH];
    intros c Hexc Hbits.
  - by eexists.
  - rewrite for_each_cons.
    destruct (step_ok ins c) as [c1 ->].
    { intros q x. apply Hexc. by left. }
    { intros Hname q Hq. apply (Hbits ins q); [by left | done | done]. }
    apply IH.
    + intros ins' q x Hins'. apply Hexc. by right.
    + intros ins' q Hins' Hname Hq.
      apply (Hbits ins' q); [by right | done | done].
Qed.

(** An exception of [gate_error] that is not an [Exception] leaves the
    [try] block. *)
Lemma step_non_exception (ins : Instruction Qubit) (c : counters float)
    (q : Qubit) (i p : nat) (x : exn) :
  operation_name ins ≠ "measure" →
  qubits ins = [q] →
  find_bit circuit q = Ok i →
  qubit_layout !! i = Some p →
  gate_error props (operation_name ins) p = Raise x →
  is_exception x = false →
  step props circuit qubit_layout ins c = Raise x.
Proof.
  intros Hname Hqs Hbit Hp Hgate Hexc. unfold step, instruction_step.
  rewrite decide_False by done. rewrite Hqs. simpl.
  rewrite Hbit. simpl.
  rewrite decide_True by (by eapply lookup_lt_Some).
  unfold layout_get. rewrite Hp. simpl. by rewrite Hgate, Hexc.
Qed.

Lemma readout_loop_ok (l : list nat) (acc : number float) :
  (∀ q, q ∈ l → ∃ v, readout_error props q = Ok v) →
  ∃ r, for_each (λ qubit acc, e ← readout_error props qubit; Ok (plus acc e))
         l acc = Ok r.
Proof.
  revert acc. induction l as [|q l IH]; intros acc Hall; [by eexists|].
  rewrite for_each_cons. unfold mbind, result_mbind, result_bind.
  destruct (Hall q) as [v ->]; [by left|].
  apply IH. intros q' Hq'. apply Hall. by right.
Qed.

(** Skipping the instructions on which the body does nothing. *)
Lemma for_each_filter {A S} (body : A → S → result S) (P : A → Prop)
    `{∀ x, Decision (P x)} (l : list A) (s : S) :
  (∀ x s, ¬ P x → body x s = Ok s) →
  for_each body (filter P l) s = for_each body l s.
Proof.
  intros Hskip. revert s. induction l as [|x l IH]; intros s; [done|].
  rewrite filter_cons. case_decide as HP.
  - rewrite !for_each_cons. destruct (body x s); [apply IH | done].
  - rewrite for_each_cons, (Hskip x s HP). apply IH.
Qed.

End InstructionLoop.

Lemma search_gates_skip (gs after : list (Gate float)) (name : string)
    (physical_qubits : list nat) (acc : number float) :
  Forall (λ g, ¬ calibrates name physical_qubits g) gs →
  search_gates float float_add float_of_int (gs ++ after) name
    physical_qubits acc
  = search_gates float float_add float_of_int after name physical_qubits acc.
Proof.
  induction 1 as [|g gs Hg _ IH]; [done|]. simpl.
  case_decide as Hmatch; [|done].
  destruct (first_gate_error (parameters g)) eqn:Hfirst; [|done].
  destruct Hg. destruct Hmatch. unfold calibrates. by rewrite Hfirst.
Qed.

(** The two gate counters of the result are the numbers of one-qubit and of
    two-qubit instructions of the circuit, measurements apart and whatever
    their names. *)
Theorem accumulated_errors_gate_counts (backend : Backend float)
    (props : Properties float) (circuit : Circuit Qubit)
    (res : list (number float)) :
  properties backend = Some props →
  accumulated_errors float_add float_of_int backend circuit = Ok res →
  ∃ total two single readout : number float,
    res = [total; two; single; readout;
           Int (gates_on 1 (data circuit));
           Int (gates_on 2 (data circuit))].
Proof.
  intros Hprops. unfold accumulated_errors. rewrite Hprops.
  unfold mbind, result_mbind, result_bind. cbv zeta.
  destruct (for_each _ (seq 0 (num_qubits circuit)) _) as [r|]; [|done].
  destruct (for_each _ (data circuit) _) as [c|] eqn:Hloop; [|done].
  intros [= <-]. apply loop_counts in Hloop as [-> ->]. simpl.
  by eexists _, _, _, _.
Qed.

(** Measurements play no part: the circuit without its measurements gives
    the same result, or the same exception. *)
Theorem accumulated_errors_without_measurements (backend : Backend float)
    (circuit : Circuit Qubit) :
  accumulated_errors float_add float_of_int backend
    (without_measurements circuit)
  = accumulated_errors float_add float_of_int backend circuit.
Proof.
  unfold accumulated_errors. destruct (properties backend) as [props|]; [|done].
  cbv zeta. cbn [without_measurements num_qubits data].
  rewrite (for_each_filter
             (instruction_step float float_add float_of_int props
                (without_measurements circuit) (seq 0 (num_qubits circuit)))).
  - reflexivity.
  - intros ins c Hname. apply step_measure.
    by destruct (decide (operation_name ins = "measure")).
Qed.

(** The function returns a list of six numbers as soon as the backend gives
    a readout error for every qubit of the circuit, [find_bit] knows the
    qubits of every instruction other than a measurement, and whatever
    [gate_error] raises is an instance of [Exception]; a [gate_error] that
    fails in this way, or a gate without calibration entry, does not
    prevent it. *)
Theorem accumulated_errors_returns (backend : Backend float)
    (props : Properties float) (circuit : Circuit Qubit) :
  properties backend = Some props →
  (∀ q, (q < num_qubits circuit)%nat → ∃ v, readout_error props q = Ok v) →
  (∀ ins q, ins ∈ data circuit → operation_name ins ≠ "measure" →
     q ∈ qubits ins → ∃ i, find_bit circuit q = Ok i) →
  (∀ name q x, gate_error props name q = Raise x → is_exception x = true) →
  ∃ res, accumulated_errors float_add float_of_int backend circuit = Ok res
         ∧ length res = 6.
Proof.
  intros Hprops Hreadout Hbits Hexc. unfold accumulated_errors. rewrite Hprops.
  unfold mbind, result_mbind, result_bind. cbv zeta.
  destruct (readout_loop_ok props (seq 0 (num_qubits circuit)) (Int 0))
    as [r Hr].
  { intros q Hq%elem_of_seq. apply Hreadout. lia. }
  unfold plus, mbind, result_mbind, result_bind in Hr. rewrite Hr.
  destruct (loop_ok props circuit (seq 0 (num_qubits circuit)) (data circuit)
              {| acc_single_qubit_error := Int 0;
                 acc_two_qubit_error := Int 0;
                 single_qubit_gate_count := 0;
                 two_qubit_gate_count := 0 |}
              (λ ins q x _, Hexc (operation_name ins) q x) Hbits) as [c Hc].
  unfold step in Hc. rewrite Hc. by eexists.
Qed.

(** A [gate_error] lookup that fails is passed over in silence: if it
    raises for every gate, the accumulated single-qubit error stays the
    integer 0 while the one-qubit gates are still counted. *)
Theorem accumulated_errors_gate_error_raises (backend : Backend float)
    (props : Properties float) (circuit : Circuit Qubit)
    (res : list (number float)) :
  properties backend = Some props →
  (∀ name q, ∃ x, gate_error props name q = Raise x) →
  accumulated_errors float_add float_of_int backend circuit = Ok res →
  res !! 2%nat = Some (Int 0)
  ∧ res !! 4%nat = Some (Int (gates_on 1 (data circuit))).
Proof.
  intros Hprops Hraise. unfold accumulated_errors. rewrite Hprops.
  unfold mbind, result_mbind, result_bind. cbv zeta.
  destruct (for_each _ (seq 0 (num_qubits circuit)) _) as [r|]; [|done].
  destruct (for_each _ (data circuit) _) as [c|] eqn:Hloop; [|done].
  intros [= <-]. simpl.
  rewrite (loop_gate_error_raises _ _ _ _ _ _ Hraise Hloop).
  apply loop_counts in Hloop as [-> _]. done.
Qed.

(** An exception of [readout_error] is not caught: the one raised for the
    lowest qubit index that fails is the outcome of the call. *)
Theorem accumulated_errors_readout_raises (backend : Backend float)
    (props : Properties float) (circuit : Circuit Qubit) (q : nat)
    (x : exn) :
  properties backend = Some props →
  (q < num_qubits circuit)%nat →
  (∀ q', (q' < q)%nat → ∃ v, readout_error props q' = Ok v) →
  readout_error props q = Raise x →
  accumulated_errors float_add float_of_int backend circuit = Raise x.
Proof.
  intros Hprops Hq Hbefore Hraise. unfold accumulated_errors. rewrite Hprops.
  cbv zeta.
  replace (seq 0 (num_qubits circuit))
    with (seq 0 q ++ q :: seq (S q) (num_qubits circuit - S q))%list.
  - rewrite for_each_app. unfold mbind, result_mbind, result_bind.
    destruct (readout_loop_ok props (seq 0 q) (Int 0)) as [r Hr].
    { intros q' Hq'%elem_of_seq. apply Hbefore. lia. }
    unfold plus, mbind, result_mbind, result_bind in Hr.
    rewrite Hr, for_each_cons, Hraise. done.
  - change (q :: seq (S q) (num_qubits circuit - S q))
      with (seq q (S (num_qubits circuit - S q))).
    rewrite <- seq_app. f_equal. lia.
Qed.

(** Only the first calibration entry that matches the gate's name and its
    qubits in order and carries a [gate_error] parameter is used: its value
    is added once, and entries after it are not looked at. *)
Theorem search_gates_first_match (before after : list (Gate float))
    (g : Gate float) (name : string) (physical_qubits : list nat)
    (acc v : number float) :
  Forall (λ g', ¬ calibrates name physical_qubits g') before →
  gate g = name → gate_qubits g = physical_qubits →
  first_gate_error (parameters g) = Some v →
  search_gates float float_add float_of_int (before ++ g :: after) name
    physical_qubits acc
  = add float float_add float_of_int acc v.
Proof.
  intros Hbefore Hname Hqubits Hfirst.
  rewrite search_gates_skip by done. simpl.
  by rewrite decide_True, Hfirst.
Qed.

(** Without a matching calibration entry nothing is added. *)
Theorem search_gates_no_match (gs : list (Gate float)) (name : string)
    (physical_qubits : list nat) (acc : number float) :
  Forall (λ g, ¬ calibrates name physical_qubits g) gs →
  search_gates float float_add float_of_int gs name physical_qubits acc
  = acc.
Proof.
  intros Hgs. rewrite <- (app_nil_r gs). by rewrite search_gates_skip.
Qed.

(** [except Exception] does not catch everything: when [gate_error] raises
    something that is not an [Exception] (a [KeyboardInterrupt], say) for a
    one-qubit gate, and the readout loop and the instructions before that
    gate went through, the call raises it. *)
Theorem accumulated_errors_non_exception (backend : Backend float)
    (props : Properties float) (circuit : Circuit Qubit)
    (before rest : list (Instruction Qubit)) (ins : Instruction Qubit)
    (q : Qubit) (i : nat) (x : exn) :
  properties backend = Some props →
  (∀ q', (q' < num_qubits circuit)%nat →
     ∃ v, readout_error props q' = Ok v) →
  data circuit = (before ++ ins :: rest)%list →
  (∀ ins' q' x', ins' ∈ before →
     gate_error props (operation_name ins') q' = Raise x' →
     is_exception x' = true) →
  (∀ ins' q', ins' ∈ before → operation_name ins' ≠ "measure" →
     q' ∈ qubits ins' → ∃ i', find_bit circuit q' = Ok i') →
  operation_name ins ≠ "measure" →
  qubits ins = [q] →
  find_bit circuit q = Ok i →
  (i < num_qubits circuit)%nat →
  gate_error props (operation_name ins) i = Raise x →
  is_exception x = false →
  accumulated_errors float_add float_of_int backend circuit = Raise x.
Proof.
  intros Hprops Hreadout Hdata Hexc Hbits Hname Hqs Hbit Hi Hgate Hnon.
  unfold accumulated_errors. rewrite Hprops, Hdata.
  unfold mbind, result_mbind, result_bind. cbv zeta.
  destruct (readout_loop_ok props (seq 0 (num_qubits circuit)) (Int 0))
    as [r Hr].
  { intros q' Hq'%elem_of_seq. apply Hreadout. lia. }
  unfold plus, mbind, result_mbind, result_bind in Hr. rewrite Hr.
  rewrite for_each_app. unfold mbind, result_mbind, result_bind.
  destruct (loop_ok props circuit (seq 0 (num_qubits circuit)) before
              {| acc_single_qubit_error := Int 0;
                 acc_two_qubit_error := Int 0;
                 single_qubit_gate_count := 0;
                 two_qubit_gate_count := 0 |} Hexc Hbits) as [c Hc].
  unfold step in Hc. rewrite Hc, for_each_cons.
  pose proof (step_non_exception props circuit (seq 0 (num_qubits circuit))
                ins c q i i x Hname Hqs Hbit) as Hstep.
  unfold step in Hstep. rewrite Hstep; [done | | done | done].
  by apply lookup_seq_lt.
Qed.

End NoiseFacts.

Lemma accumulated_errors_gate_counts_witness :
  returns
    (accumulated_errors Qplus inject_Z
       {| properties := Some sample_properties |} sample_circuit)
    (λ res,
       ∃ total two single readout : number Q,
         res = [total; two; single; readout;
                Int (gates_on 1 (data _ sample_circuit));
                Int (gates_on 2 (data _ sample_circuit))]).
Proof.
  returns_intro res Hres.
  by apply (accumulated_errors_gate_counts Qplus inject_Z
              {| properties := Some sample_properties |} sample_properties
              sample_circuit res).
Defined.

Lemma accumulated_errors_returns_witness :
  ∃ res,
    accumulated_errors Qplus inject_Z
      {| properties := Some sample_properties |} sample_circuit = Ok res
    ∧ length res = 6.
Proof.
  apply (accumulated_errors_returns Qplus inject_Z _ sample_properties).
  - reflexivity.
  - intros q _. by eexists.
  - intros ins q _ _ _. by eexists.
  - intros name q x [= <-]. reflexivity.
Defined.

Lemma accumulated_errors_gate_error_raises_witness :
  returns
    (accumulated_errors Qplus inject_Z
       {| properties := Some sample_properties |} sample_circuit)
    (λ res,
       res !! 2%nat = Some (Int 0)
       ∧ res !! 4%nat = Some (Int (gates_on 1 (data _ sample_circuit)))).
Proof.
  returns_intro res Hres.
  apply (accumulated_errors_gate_error_raises Qplus inject_Z
           {| properties := Some sample_properties |} sample_properties
           sample_circuit res); [reflexivity | | done].
  intros name q. by eexists.
Defined.

Lemma accumulated_errors_readout_raises_witness :
  accumulated_errors Qplus inject_Z
    {| properties :=
         Some {| readout_error :=
                   λ q, if decide (q = 1%nat)
                        then Raise (OtherError "no such qubit")
                        else Ok (Float (1 # 100)%Q);
                 gate_error := λ _ _, Raise (OtherError "no such gate");
                 gates := [] |} |}
    sample_circuit
  = Raise (OtherError "no such qubit").
Proof.
  eapply (accumulated_errors_readout_raises Qplus inject_Z _ _ _ 1%nat).
  - reflexivity.
  - simpl. lia.
  - intros q' Hq'. assert (q' = 0%nat) as -> by lia. by eexists.
  - reflexivity.
Defined.

Lemma search_gates_first_match_witness :
  search_gates Q Qplus inject_Z (gates _ sample_properties) "cx"
    [0%nat; 1%nat] (Int 0)
  = add Q Qplus inject_Z (Int 0) (Float (1 # 50)%Q).
Proof.
  apply (search_gates_first_match Qplus inject_Z
           [cx_entry [1%nat; 0%nat] "gate_error" (1 # 40)%Q;
            cx_entry [0%nat; 1%nat] "gate_length" (3 # 1)%Q]
           [cx_entry [0%nat; 1%nat] "gate_error" (1 # 60)%Q]
           (cx_entry [0%nat; 1%nat] "gate_error" (1 # 50)%Q));
    [|reflexivity..].
  repeat (apply List.Forall_cons;
          [unfold calibrates; simpl; intros (? & ? & ?);
           first [discriminate | by eapply is_Some_None]|]).
  apply List.Forall_nil.
Defined.

Lemma search_gates_no_match_witness :
  search_gates Q Qplus inject_Z (gates _ sample_properties) "cz"
    [0%nat; 1%nat] (Int 0)
  = Int 0.
Proof.
  apply (search_gates_no_match Qplus inject_Z).
  repeat (apply List.Forall_cons;
          [unfold calibrates; simpl; intros (? & ? & ?);
           first [discriminate | by eapply is_Some_None]|]).
  apply List.Forall_nil.
Defined.

Lemma accumulated_errors_non_exception_witness :
  accumulated_errors Qplus inject_Z
    {| properties :=
         Some {| readout_error := λ _, Ok (Float (1 # 100)%Q);
                 gate_error :=
                   λ _ _, Raise (NonException "KeyboardInterrupt");
                 gates := [] |} |}
    sample_circuit
  = Raise (NonException "KeyboardInterrupt").
Proof.
  eapply (accumulated_errors_non_exception Qplus inject_Z _ _ sample_circuit
            [] _ _ 0%nat 0%nat).
  - reflexivity.
  - intros q' _. by eexists.
  - reflexivity.
  - by intros ins' q' x' ?%elem_of_nil.
  - by intros ins' q' ?%elem_of_nil.
  - done.
  - reflexivity.
  - reflexivity.
  - simpl. lia.
  - reflexivity.
  - reflexivity.
Defined.
